(** * The toast queue of [src/components/Message/index.tsx]

    The module keeps a process-wide array [queue] of toast records and
    installs one global function, [window.onShow].  Each call creates a
    [div], positions it by the current queue length, mounts the
    [Message] component into it, records the pair (container, root) in
    the queue and arms a 2000 ms one-shot timer whose callback tears the
    toast down again.

    The embedding below follows the source statement by statement.  The
    browser and React primitives the module consumes
    ([document.createElement], [appendChild], [removeChild],
    [createRoot], [render], [unmount], [setTimeout]) are modelled as
    operations of a small state-and-exception monad over an explicit
    [World]. *)

From stdpp Require Import base numbers option list gmap strings pretty.

Open Scope string_scope.
Open Scope list_scope.
Open Scope nat_scope.

(** ** Data model *)

(** DOM nodes and React roots are objects; the code compares containers
    with [===], that is, by object identity.  An identity is a natural
    number handed out by an allocator. *)
Definition node_id := nat.
Definition root_id := nat.

(** The attributes of an [HTMLDivElement] the module writes. *)
Record Element := mkElement {
  tagName : string;
  className : string;
  style_top : string;
}.

(** What a component returns: an element with a tag and children, or a
    text node. *)
#[warnings="-register-all"]
Inductive ReactNode :=
| RText (text : string)
| RElem (tag : string) (children : list ReactNode).

(** A root created by [ReactDom.createRoot]: the container it is bound
    to and what it currently shows.  [Mounted view] records that
    [render] was called and [unmount] was not; when React paints the
    view into the container is React's own business. *)
Inductive RootStatus :=
| Idle
| Mounted (view : ReactNode)
| Unmounted.

Record Root := mkRoot {
  container : node_id;
  status : RootStatus;
}.

(** [interface Item { msgContainer: HTMLDivElement; root: ReactDom.Root }] *)
Record Item := mkItem {
  msgContainer : node_id;
  root : root_id;
}.

#[global] Instance Item_eq_dec : EqDecision Item.
Proof. solve_decision. Defined.

(** A pending [setTimeout].  The module has a single callback body (the
    arrow function of lines 23 to 28); a pending timer is therefore its
    deadline together with the one variable the closure captures,
    [msgContainer].  The timer handle returned by [setTimeout] is
    discarded by the source, so no [clearTimeout] can ever name it. *)
Record Timer := mkTimer {
  due : nat;
  captured : node_id;
}.

#[global] Instance Timer_eq_dec : EqDecision Timer.
Proof. solve_decision. Defined.

(** Exceptions the primitives can raise. *)
Inductive Exn :=
| TypeError (msg : string)
| NotFoundError (msg : string)
| ReactError (msg : string).

(** The state the module reads and writes.  [now] is the clock in
    milliseconds; [body] lists the children of [document.body] in
    document order; [uncaught] collects exceptions that escaped to the
    event loop. *)
Record World := mkWorld {
  now : nat;
  next_node : node_id;
  nodes : gmap node_id Element;
  body : list node_id;
  next_root : root_id;
  roots : gmap root_id Root;
  queue : list Item;
  timers : list Timer;
  uncaught : list Exn;
}.

Definition set_now (f : nat → nat) (w : World) : World :=
  mkWorld (f (now w)) (next_node w) (nodes w) (body w) (next_root w)
          (roots w) (queue w) (timers w) (uncaught w).
Definition set_nodes (n : node_id) (f : gmap node_id Element → gmap node_id Element)
    (w : World) : World :=
  mkWorld (now w) n (f (nodes w)) (body w) (next_root w)
          (roots w) (queue w) (timers w) (uncaught w).
Definition set_body (f : list node_id → list node_id) (w : World) : World :=
  mkWorld (now w) (next_node w) (nodes w) (f (body w)) (next_root w)
          (roots w) (queue w) (timers w) (uncaught w).
Definition set_roots (r : root_id) (f : gmap root_id Root → gmap root_id Root)
    (w : World) : World :=
  mkWorld (now w) (next_node w) (nodes w) (body w) r
          (f (roots w)) (queue w) (timers w) (uncaught w).
Definition set_queue (f : list Item → list Item) (w : World) : World :=
  mkWorld (now w) (next_node w) (nodes w) (body w) (next_root w)
          (roots w) (f (queue w)) (timers w) (uncaught w).
Definition set_timers (f : list Timer → list Timer) (w : World) : World :=
  mkWorld (now w) (next_node w) (nodes w) (body w) (next_root w)
          (roots w) (queue w) (f (timers w)) (uncaught w).
Definition set_uncaught (f : list Exn → list Exn) (w : World) : World :=
  mkWorld (now w) (next_node w) (nodes w) (body w) (next_root w)
          (roots w) (queue w) (timers w) (f (uncaught w)).

(** ** A state-and-exception monad

    A JavaScript statement either completes, or throws and leaves the
    effects it had so far in place. *)
Inductive Res (A : Type) :=
| Ok (a : A) (w : World)
| Throw (e : Exn) (w : World).
Arguments Ok {A} a w.
Arguments Throw {A} e w.

Definition M (A : Type) := World → Res A.

#[global] Instance M_ret : MRet M := fun A a w => Ok a w.
#[global] Instance M_bind : MBind M := fun A B k m w =>
  match m w with
  | Ok a w' => k a w'
  | Throw e w' => Throw e w'
  end.

Definition throw {A} (e : Exn) : M A := fun w => Throw e w.
Definition modify (f : World → World) : M unit := fun w => Ok tt (f w).
Definition gets {A} (f : World → A) : M A := fun w => Ok (f w) w.

(** The world an outcome leaves behind. *)
Definition world_of {A} (r : Res A) : World :=
  match r with Ok _ w => w | Throw _ w => w end.

(** ** Array methods used on [queue] *)

(** [Array.prototype.find]: the first element satisfying the callback,
    [undefined] ([None]) when there is none. *)
Fixpoint find {A} (p : A → bool) (l : list A) : option A :=
  match l with
  | [] => None
  | x :: l' => if p x then Some x else find p l'
  end.

(** [Array.prototype.indexOf]: the first index holding the element, -1
    when there is none.  Every slot of [queue] holds an object of its
    own, written by the object literal of line 19, and [find] returns
    the object of the first slot whose container matches; comparing
    records by value therefore selects the same slot as comparing the
    objects by identity. *)
Fixpoint indexOf {A} `{EqDecision A} (x : A) (l : list A) : Z :=
  match l with
  | [] => (-1)%Z
  | y :: l' =>
      if decide (y = x) then 0%Z
      else let i := indexOf x l' in
           if (i <? 0)%Z then (-1)%Z else (i + 1)%Z
  end.

(** [Array.prototype.splice(start, deleteCount)] without inserted
    elements.  A negative [start] counts from the end; the start is
    clamped to the array. *)
Definition splice {A} (start : Z) (deleteCount : nat) (l : list A) : list A :=
  let len := Z.of_nat (length l) in
  let s := if (start <? 0)%Z then Z.max (len + start) 0 else Z.min start len in
  take (Z.to_nat s) l ++ drop (Z.to_nat s + deleteCount) l.

(** ** Browser and React primitives *)

(** [document.createElement(tag)]: a fresh, detached element. *)
Definition createElement (tag : string) : M node_id :=
  fun w => Ok (next_node w)
              (set_nodes (S (next_node w))
                         (insert (next_node w) (mkElement tag "" "")) w).

Definition set_className (n : node_id) (s : string) : M unit :=
  modify (fun w => set_nodes (next_node w)
    (alter (fun el => mkElement (tagName el) s (style_top el)) n) w).

Definition set_style_top (n : node_id) (s : string) : M unit :=
  modify (fun w => set_nodes (next_node w)
    (alter (fun el => mkElement (tagName el) (className el) s) n) w).

(** [document.body.appendChild(n)]: [n] becomes the last child; a node
    that is already a child is moved, not duplicated. *)
Definition appendChild (n : node_id) : M unit :=
  modify (set_body (fun b => filter (fun m => m ≠ n) b ++ [n])).

(** [document.body.removeChild(n)]: throws [NotFoundError] when [n] is
    not a child of the body. *)
Definition removeChild (n : node_id) : M unit :=
  fun w => if decide (n ∈ body w)
           then Ok tt (set_body (filter (fun m => m ≠ n)) w)
           else Throw (NotFoundError "The node to be removed is not a child of this node.") w.

(** [ReactDom.createRoot(container)]. *)
Definition createRoot (c : node_id) : M root_id :=
  fun w => Ok (next_root w)
              (set_roots (S (next_root w))
                         (insert (next_root w) (mkRoot c Idle)) w).

(** A function component: React calls it while rendering; being a
    JavaScript function it could read and write the world. *)
Definition Component := M ReactNode.

(** [root.render(<C />)]: React refuses to update an unmounted root;
    otherwise it calls the component and shows what it returns. *)
Definition render (r : root_id) (C : Component) : M unit :=
  fun w => match roots w !! r with
           | Some (mkRoot _ Unmounted) =>
               Throw (ReactError "Cannot update an unmounted root.") w
           | _ => (view ← C;
                   modify (fun w' => set_roots (next_root w')
                     (alter (fun rt => mkRoot (container rt) (Mounted view)) r) w')) w
           end.

(** [root.unmount()]. *)
Definition unmount (r : root_id) : M unit :=
  modify (fun w => set_roots (next_root w)
    (alter (fun rt => mkRoot (container rt) Unmounted) r) w).

(** [setTimeout(callback, delay)], for the callback capturing [c]. *)
Definition setTimeout (c : node_id) (delay : nat) : M unit :=
  modify (fun w => set_timers (fun ts => ts ++ [mkTimer (now w + delay) c]) w).

(** ** The module *)

(** [const Message = () => { return <div>提示组件</div>; }] *)
Definition Message : Component :=
  mret (RElem "div" [RText "提示组件"]).

(** The template literal [`${n}px`]. *)
Definition px (n : nat) : string := pretty n +:+ "px".
Arguments px : simpl never.

(** The callback of line 23, for the captured [msgContainer]. *)
Definition expire (c : node_id) : M unit :=
  q ← gets queue;
   match find (fun item => bool_decide (msgContainer item = c)) q with
   | None => throw (TypeError "Cannot read properties of undefined (reading 'root')")
   | Some item =>
       unmount (root item);;
       removeChild (msgContainer item);;
       q' ← gets queue;
       modify (set_queue (fun _ => splice (indexOf item q') 1 q'))
   end.

(** [window.onShow = () => { ... }] *)
Definition onShow : M unit :=
  msgContainer ← createElement "div";
   set_className msgContainer "message";;
   len ← gets (fun w => length (queue w));
   set_style_top msgContainer (px (len * 50));;
   appendChild msgContainer;;
   root ← createRoot msgContainer;
   render root Message;;
   modify (set_queue (fun q => q ++ [mkItem msgContainer root]));;
   setTimeout msgContainer 2000.

(** ** The event loop

    JavaScript runs one task at a time.  Three things can happen next:
    page code calls [window.onShow()], a millisecond passes, or a
    pending timer whose deadline has been reached runs its callback.  A
    timer never runs before its deadline; it may run late, since
    [EvTick] is always possible (scheduler slack). *)

(** An exception that escapes a task is reported and the loop goes on. *)
Definition settle {A} (r : Res A) : World :=
  match r with
  | Ok _ w => w
  | Throw e w => set_uncaught (fun l => l ++ [e]) w
  end.

Inductive event :=
| EvShow
| EvTick
| EvFire (k : nat).

(** Run the [k]-th pending timer: it leaves the timer list, then its
    callback executes. *)
Definition fire (k : nat) (w : World) : option World :=
  match timers w !! k with
  | Some t =>
      if decide (due t ≤ now w)
      then Some (settle (expire (captured t) (set_timers (delete k) w)))
      else None
  | None => None
  end.

Definition step (e : event) (w : World) : option World :=
  match e with
  | EvShow => Some (settle (onShow w))
  | EvTick => Some (set_now S w)
  | EvFire k => fire k w
  end.

Fixpoint run (evs : list event) (w : World) : option World :=
  match evs with
  | [] => Some w
  | e :: evs' => w' ← step e w; run evs' w'
  end.

(** The world when the module has just been evaluated, at time [t0], on
    a page whose body already has the children [page]: the queue is the
    empty array of line 11 and nothing is scheduled. *)
Definition boot (t0 : nat) (page : list Element) : World :=
  mkWorld t0 (length page) (map_seq 0 page) (seq 0 (length page)) 0 ∅ [] [] [].

Definition reachable (w : World) : Prop :=
  ∃ t0 page evs, run evs (boot t0 page) = Some w.

(** *** A punctual scheduler

    The ideal event loop, without slack: every timer runs at the very
    millisecond of its deadline, earlier registrations first. *)
Definition first_due (w : World) : option nat :=
  fst <$> list_find (fun t => due t ≤ now w) (timers w).

Fixpoint flush_n (n : nat) (w : World) : World :=
  match n with
  | 0 => w
  | S n' =>
      match first_due w with
      | Some k =>
          match fire k w with
          | Some w' => flush_n n' w'
          | None => w
          end
      | None => w
      end
  end.

(** Each callback removes its timer and arms no new one, so as many
    rounds as there are pending timers run every due one. *)
Definition flush (w : World) : World := flush_n (length (timers w)) w.

Fixpoint elapse (d : nat) (w : World) : World :=
  match d with
  | 0 => w
  | S d' => elapse d' (flush (set_now S w))
  end.

Inductive action :=
| Call
| Sleep (d : nat).

Definition perform (a : action) (w : World) : World :=
  match a with
  | Call => settle (onShow w)
  | Sleep d => elapse d w
  end.

Fixpoint play (acts : list action) (w : World) : World :=
  match acts with
  | [] => w
  | a :: acts' => play acts' (perform a w)
  end.

(** ** Observations *)

(** The [style.top] of a record's container. *)
Definition top_of (w : World) (it : Item) : option string :=
  style_top <$> nodes w !! msgContainer it.

Definition offsets (w : World) : list (option string) :=
  top_of w <$> queue w.

(** What [Message] puts on screen. *)
Definition toast_view : ReactNode := RElem "div" [RText "提示组件"].

(** A record is live: its container is a child of the body and its
    root shows the message inside that container. *)
Definition live (w : World) (it : Item) : Prop :=
  (msgContainer it ∈ body w)
  ∧ is_Some (nodes w !! msgContainer it)
  ∧ (roots w !! root it = Some (mkRoot (msgContainer it) (Mounted toast_view))).

(** A record is released: container detached, root unmounted. *)
Definition released (w : World) (it : Item) : Prop :=
  (msgContainer it ∉ body w)
  ∧ (roots w !! root it = Some (mkRoot (msgContainer it) Unmounted)).

(** Event lists in which no timer runs. *)
Definition is_fire (e : event) : bool :=
  match e with EvFire _ => true | _ => false end.

Definition quiet (evs : list event) : Prop :=
  Forall (fun e => is_fire e = false) evs.

(** The clock readings at which the calls of an event list happen,
    starting at time [t]. *)
Fixpoint show_times (evs : list event) (t : nat) : list nat :=
  match evs with
  | [] => []
  | EvShow :: evs' => t :: show_times evs' t
  | EvTick :: evs' => show_times evs' (S t)
  | EvFire _ :: evs' => show_times evs' t
  end.

(** ** The invariant of the module

    What holds between any two tasks: pending timers and queue records
    correspond one to one and in the same order, no container and no
    root is recorded twice, every recorded handle was really allocated,
    every record is live, and no exception has escaped. *)
Record Inv (w : World) : Prop := mkInv {
  inv_timers : captured <$> timers w = msgContainer <$> queue w;
  inv_nodup : NoDup (msgContainer <$> queue w);
  inv_nodup_root : NoDup (root <$> queue w);
  inv_body : ∀ n, n ∈ body w → n < next_node w;
  inv_fresh : ∀ it, it ∈ queue w →
              msgContainer it < next_node w ∧ root it < next_root w;
  inv_live : ∀ it, it ∈ queue w → live w it;
  inv_uncaught : uncaught w = [];
}.

(** ** The life of one toast

    A toast created by a call is followed through later worlds by its
    record [it] and its timer [tm].  It is either still pending (in the
    queue, timer armed, live) or gone for good (neither its container
    nor its root is recorded any more, both are released, and its
    deadline has passed). *)
Definition pending (it : Item) (tm : Timer) (w : World) : Prop :=
  it ∈ queue w ∧ tm ∈ timers w ∧ live w it.

Definition gone (it : Item) (tm : Timer) (w : World) : Prop :=
  (msgContainer it ∉ (msgContainer <$> queue w))
  ∧ (root it ∉ (root <$> queue w))
  ∧ released w it
  ∧ due tm ≤ now w.

Definition tracked (it : Item) (tm : Timer) (w : World) : Prop :=
  Inv w
  ∧ captured tm = msgContainer it
  ∧ msgContainer it < next_node w
  ∧ root it < next_root w
  ∧ (pending it tm w ∨ gone it tm w).

(** ** Scenarios

    The second scenario of the specification: three calls at 0, 10
    and 20 ms.  [three_toasts] is the world at 2010 ms if no timer has
    run yet: the first two timers are due, the third is not. *)
Definition spec_scenario : list event :=
  [EvShow] ++ repeat EvTick 10 ++ [EvShow] ++ repeat EvTick 10 ++ [EvShow]
  ++ repeat EvTick 1990.

Definition three_toasts : World :=
  default (boot 0 []) (run spec_scenario (boot 0 [])).

(** The same world after the timer of the middle toast has run. *)
Definition middle_expired : World :=
  default three_toasts (fire 1 three_toasts).

(** ** One call, one callback, spelled out *)

(** The world [onShow] leaves behind, field by field. *)
Definition shown (w : World) : World :=
  mkWorld (now w) (S (next_node w))
    (<[next_node w := mkElement "div" "message" (px (length (queue w) * 50))]> (nodes w))
    (filter (fun m => m ≠ next_node w) (body w) ++ [next_node w])
    (S (next_root w))
    (<[next_root w := mkRoot (next_node w) (Mounted toast_view)]> (roots w))
    (queue w ++ [mkItem (next_node w) (next_root w)])
    (timers w ++ [mkTimer (now w + 2000) (next_node w)])
    (uncaught w).

(** The world a successful callback leaves behind. *)
Definition expired (it : Item) (q' : list Item) (w : World) : World :=
  mkWorld (now w) (next_node w) (nodes w)
    (filter (fun m => m ≠ msgContainer it) (body w))
    (next_root w)
    (alter (fun rt => mkRoot (container rt) Unmounted) (root it) (roots w))
    q' (timers w) (uncaught w).

(** ** Further observations on the module *)

(** The page the module was loaded on is kept: its children still head
    the body, in order, followed by the containers of the queue, and
    its elements have the attributes they had. *)
Definition page_kept (page : list Element) (w : World) : Prop :=
  body w = seq 0 (length page) ++ (msgContainer <$> queue w)
  ∧ (∀ i el, page !! i = Some el → nodes w !! i = Some el)
  ∧ length page ≤ next_node w
  ∧ (∀ it, it ∈ queue w → length page ≤ msgContainer it).

(** Every container in the queue is a [div] of class [message] whose
    offset slot is not below the record's position in the queue. *)
Definition styled (w : World) : Prop :=
  ∀ i it, queue w !! i = Some it →
    ∃ k, i ≤ k
         ∧ nodes w !! msgContainer it
           = Some (mkElement "div" "message" (px (k * 50))).

(** Timers are listed by non-decreasing deadline and none is due more
    than 2000 ms ahead. *)
Definition in_deadline_order (w : World) : Prop :=
  (∀ i j ti tj, i ≤ j → timers w !! i = Some ti → timers w !! j = Some tj →
                due ti ≤ due tj)
  ∧ (∀ t, t ∈ timers w → due t ≤ now w + 2000).

(** The clock moved on by [n] milliseconds, nothing else changed. *)
Definition later (n : nat) (w : World) : World :=
  set_now (fun t => t + n) w.

(** The toast of container [c] and root [r] taken down. *)
Definition without (c : node_id) (r : root_id) (w : World) : World :=
  mkWorld (now w) (next_node w) (nodes w)
    (filter (fun m => m ≠ c) (body w))
    (next_root w)
    (alter (fun rt => mkRoot (container rt) Unmounted) r (roots w))
    (filter (fun it => msgContainer it ≠ c) (queue w))
    (filter (fun t => captured t ≠ c) (timers w))
    (uncaught w).

(** The containers of the queue are the last ones created, oldest
    first. *)
Definition newest_first_out (w : World) : Prop :=
  length (queue w) ≤ next_node w
  ∧ msgContainer <$> queue w
    = seq (next_node w - length (queue w)) (length (queue w)).

(** * The goods table of the [useMemo] example

    The component keeps a list of goods in state; the [+] and [-]
    buttons map over the list the render captured and hand the result
    to [setGoods]; [total] folds the list.  A handler is modelled as
    the function from the captured list to the list it sets.  JavaScript
    numbers are modelled as integers: every number here starts as an
    integer and only changes by adding or subtracting one. *)
Module Cart.

Record Good := mkGood {
  id : Z;
  name : string;
  price : Z;
  count : Z;
}.

#[global] Instance Good_eq_dec : EqDecision Good.
Proof. solve_decision. Defined.

(** The initial state of line 58. *)
Definition initial : list Good :=
  [mkGood 1 "鸡" 10 1; mkGood 2 "鸭" 20 1; mkGood 3 "鹅" 30 1].

(** [goods.map((item) => item.id === id ? { ...item, count: item.count + 1 } : item)] *)
Definition handleAdd (i : Z) (goods : list Good) : list Good :=
  (fun item => if decide (id item = i)
               then mkGood (id item) (name item) (price item) (count item + 1)
               else item) <$> goods.

(** [goods.map((item) => item.id === id ? { ...item, count: item.count - 1 } : item)] *)
Definition handleSub (i : Z) (goods : list Good) : list Good :=
  (fun item => if decide (id item = i)
               then mkGood (id item) (name item) (price item) (count item - 1)
               else item) <$> goods.


End Cart.

(** * The todo list cache of the TanStack Query example

    The query cache entry ["todos"] is either absent ([undefined]) or a
    list of todos.  The component writes it from three callbacks: the
    [onSuccess] of the add mutation and the [onMutate] and [onError] of
    the optimistic update.  [setQueryData] with an updater stores what
    the updater returns; with a value it stores the value. *)
Module Todos.

(** [interface Todo], with the [optimistic] mark that line 456 adds
    ([false] stands for an absent mark). *)
Record Todo := mkTodo {
  id : Z;
  title : string;
  completed : bool;
  optimistic : bool;
}.

#[global] Instance Todo_eq_dec : EqDecision Todo.
Proof. solve_decision. Defined.

Definition Cache := option (list Todo).

(** The updater of line 321:
    [oldTodos ? [...oldTodos, newTodo] : [newTodo]].  An array, even an
    empty one, is truthy. *)
Definition appended (newTodo : Todo) (oldTodos : Cache) : list Todo :=
  match oldTodos with
  | Some old => old ++ [newTodo]
  | None => [newTodo]
  end.

(** [onSuccess] of [addTodoMutation], as far as the cache goes. *)
Definition addTodo_onSuccess (newTodo : Todo) (cache : Cache) : Cache :=
  Some (appended newTodo cache).

(** [{ ...todo, ...newTodo, optimistic: true }]: both are todos, so
    every field comes from [newTodo] and the mark is set. *)
Definition merged (todo newTodo : Todo) : Todo :=
  mkTodo (id newTodo) (title newTodo) (completed newTodo) true.

(** The updater of lines 452 to 459. *)
Definition optimistically (newTodo : Todo) (old : Cache) : list Todo :=
  match old with
  | None => [newTodo]
  | Some old =>
      (fun todo => if decide (id todo = id newTodo)
                   then merged todo newTodo else todo) <$> old
  end.

(** What [onMutate] returns: [{ previousTodos }]. *)
Record Context := mkContext {
  previousTodos : Cache;
}.

(** [onMutate]: snapshot the cache, write the optimistic list, return
    the snapshot.  The result is the context and the new cache. *)
Definition onMutate (newTodo : Todo) (cache : Cache) : Context * Cache :=
  (mkContext cache, Some (optimistically newTodo cache)).

(** [onError]: [if (context?.previousTodos) setQueryData(["todos"],
    context.previousTodos)].  The context is [undefined] when
    [onMutate] did not return. *)
Definition onError (context : option Context) (cache : Cache) : Cache :=
  match context with
  | Some (mkContext (Some previous)) => Some previous
  | _ => cache
  end.

(** The argument [handleOptimisticUpdate] passes to [mutate]:
    [{ ...todo, completed: !todo.completed }]. *)
Definition toggled (todo : Todo) : Todo :=
  mkTodo (id todo) (title todo) (negb (completed todo)) (optimistic todo).

End Todos.

(** * The stopwatch and the click counter of the [useRef] example

    [timer] is a ref holding the handle of the interval started last;
    the browser keeps the set of running intervals and hands out fresh
    positive handles.  Every run of an interval's callback adds one to
    the state [t] through a functional update. *)
Module Stopwatch.

Record State := mkState {
  current : option nat;
  running : gset nat;
  next_handle : nat;
  t : nat;
}.

(** The component when it mounts: [useRef(null)], [useState(0)], and a
    browser whose next handle is [S n0]. *)
Definition init (n0 : nat) : State := mkState None ∅ (S n0) 0.

(** [timer.current = setInterval(() => { setT((t) => t + 1); }, 300)] *)
Definition handleStart (s : State) : State :=
  mkState (Some (next_handle s)) ({[next_handle s]} ∪ running s)
          (S (next_handle s)) (t s).

(** [if (timer.current) { clearInterval(timer.current); timer.current = null; }]
    [null] and 0 are falsy. *)
Definition handleEnd (s : State) : State :=
  match current s with
  | Some h =>
      if decide (h = 0) then s
      else mkState None (running s ∖ {[h]}) (next_handle s) (t s)
  | None => s
  end.

(** The callback of interval [h] runs, if [h] is still running. *)
Definition fire (h : nat) (s : State) : State :=
  if decide (h ∈ running s)
  then mkState (current s) (running s) (next_handle s) (S (t s))
  else s.

Inductive event :=
| Start
| End
| Fire (h : nat).

Definition step (e : event) (s : State) : State :=
  match e with
  | Start => handleStart s
  | End => handleEnd s
  | Fire h => fire h s
  end.

Definition run (evs : list event) (s : State) : State :=
  foldl (fun s e => step e s) s evs.

(** Handles in use were handed out: they are positive and below the
    next one. *)
Definition wf (s : State) : Prop :=
  0 < next_handle s
  ∧ (∀ h, h ∈ running s → 0 < h < next_handle s)
  ∧ (∀ h, current s = Some h → 0 < h < next_handle s).

End Stopwatch.

(** [handleClick2]: [setCount(count + 1); num.current = count], where
    [count] is the constant of the render that made the handler. *)
Module Counter.

Record State := mkState {
  count : Z;       (* the state React holds *)
  seen : Z;        (* [count] as captured by the handlers on screen *)
  num_current : Z; (* [num.current] *)
}.

Definition init : State := mkState 0 0 0.

Definition handleClick2 (s : State) : State :=
  mkState (seen s + 1) (seen s) (seen s).

(** React renders the component again: the new handlers see the state. *)
Definition render (s : State) : State :=
  mkState (count s) (count s) (num_current s).

Inductive event :=
| Click
| Render.

Definition step (e : event) (s : State) : State :=
  match e with
  | Click => handleClick2 s
  | Render => render s
  end.

Definition run (evs : list event) (s : State) : State :=
  foldl (fun s e => step e s) s evs.

(** How many renders an event list has. *)
Fixpoint renders (evs : list event) : nat :=
  match evs with
  | [] => 0
  | Render :: evs' => S (renders evs')
  | Click :: evs' => renders evs'
  end.

End Counter.

(** * The [useState] example: one click handler over three states *)
Module Profile.

Record Obj := mkObj {
  date : string;
  oname : string;
  age : Z;
}.

Record State := mkState {
  name : string;
  arr : list Z;
  obj : Obj;
}.



End Profile.

(** * Properties *)

(** ** Array methods *)

Section array_methods.
Context {A : Type} `{EqDecision A}.
Implicit Types (l : list A) (p : A → bool).

Lemma find_split p l x :
  find p l = Some x →
  ∃ l1 l2, l = l1 ++ x :: l2 ∧ p x = true ∧ Forall (fun y => p y = false) l1.
Proof.
  induction l as [|y l IH]; simpl; [done|].
  destruct (p y) eqn:Hy.
  - intros [= ->]. exists [], l. by repeat split.
  - intros (l1 & l2 & -> & Hx & Hl1)%IH.
    exists (y :: l1), l2. repeat split; [done|]. by constructor.
Qed.

Lemma find_None p l : find p l = None ↔ Forall (fun y => p y = false) l.
Proof.
  induction l as [|y l IH]; simpl.
  - split; [constructor | done].
  - destruct (p y) eqn:Hy.
    + split; [done|]. intros [? _]%Forall_cons. congruence.
    + rewrite IH. split; [by constructor | by intros [_ ?]%Forall_cons].
Qed.

Lemma indexOf_app_cons l1 l2 x :
  x ∉ l1 → indexOf x (l1 ++ x :: l2) = Z.of_nat (length l1).
Proof.
  induction l1 as [|y l1 IH]; simpl; intros Hn.
  - by rewrite decide_True.
  - apply not_elem_of_cons in Hn as [Hxy Hn].
    rewrite decide_False by done. rewrite IH by done.
    destruct (Z.ltb_spec (Z.of_nat (length l1)) 0); lia.
Qed.

Lemma splice_one l1 l2 x :
  splice (Z.of_nat (length l1)) 1 (l1 ++ x :: l2) = l1 ++ l2.
Proof.
  unfold splice. rewrite length_app. simpl.
  destruct (Z.ltb_spec (Z.of_nat (length l1)) 0); [lia|].
  rewrite Z.min_l by lia. rewrite Nat2Z.id.
  rewrite take_app_length, drop_app_add. done.
Qed.

(** [find] followed by [splice(indexOf(item), 1)] deletes the first
    element satisfying the predicate and nothing else. *)
Lemma find_splice p l x :
  find p l = Some x →
  ∃ l1 l2, l = l1 ++ x :: l2 ∧ p x = true
           ∧ Forall (fun y => p y = false) l1
           ∧ splice (indexOf x l) 1 l = l1 ++ l2.
Proof.
  intros (l1 & l2 & -> & Hx & Hl1)%find_split.
  exists l1, l2. repeat split; [done..|].
  rewrite indexOf_app_cons; [apply splice_one|].
  intros Hin. rewrite Forall_forall in Hl1. specialize (Hl1 _ Hin). congruence.
Qed.
End array_methods.

(** ** One call, one callback *)

(** Unfold the monad and the field updates by need, so that a world
    threaded through several statements is evaluated once. *)
Ltac run_world :=
  lazy beta iota zeta delta
    [mbind M_bind mret M_ret modify gets throw world_of
     set_now set_nodes set_body set_roots set_queue set_timers set_uncaught
     now next_node nodes body next_root roots queue timers uncaught].

Lemma onShow_shown w : onShow w = Ok tt (shown w).
Proof.
  destruct w as [t nn ns b nr rs q ts u].
  unfold onShow, shown, createElement, set_className,
    set_style_top, appendChild, createRoot, render, setTimeout, Message.
  run_world. rewrite lookup_insert_eq. run_world.
  by rewrite !alter_insert_eq.
Qed.

Lemma expire_found c w it :
  find (fun item => bool_decide (msgContainer item = c)) (queue w) = Some it →
  msgContainer it ∈ body w →
  expire c w = Ok tt (expired it (splice (indexOf it (queue w)) 1 (queue w)) w).
Proof.
  intros Hf Hb.
  destruct w as [t nn ns b nr rs q ts u]. simpl in Hf, Hb.
  unfold expire, expired, unmount, removeChild. run_world. rewrite Hf.
  run_world. by rewrite decide_True.
Qed.

Lemma expire_not_found c w :
  find (fun item => bool_decide (msgContainer item = c)) (queue w) = None →
  ∃ e, expire c w = Throw e w.
Proof.
  destruct w as [t nn ns b nr rs q ts u]. simpl. intros Hf.
  unfold expire. run_world. rewrite Hf. by eexists.
Qed.

(** Whatever happens, a callback leaves element attributes, timers and
    the clock alone and can only shrink the queue. *)
Lemma expire_frame c w :
  let w' := world_of (expire c w) in
  nodes w' = nodes w ∧ timers w' = timers w ∧ now w' = now w
  ∧ next_node w' = next_node w ∧ next_root w' = next_root w
  ∧ queue w' ⊆ queue w.
Proof.
  destruct w as [t nn ns b nr rs q ts u].
  unfold expire, unmount, removeChild. run_world.
  destruct (find _ q) as [it|] eqn:Hf; run_world; [|done].
  destruct (decide _); run_world; [|done].
  repeat split; try done.
  apply find_splice in Hf as (l1 & l2 & Hq & _ & _ & ->).
  rewrite Hq. intros x. rewrite !elem_of_app, elem_of_cons. tauto.
Qed.

(** ** The invariant is established and preserved *)

Lemma NoDup_fmap_middle {A B} (f : A → B) (l1 l2 : list A) (x : A) :
  NoDup (f <$> (l1 ++ x :: l2)) →
  NoDup (f <$> (l1 ++ l2)) ∧ ∀ y, y ∈ l1 ++ l2 → f y ≠ f x.
Proof.
  rewrite !fmap_app, fmap_cons, !NoDup_app, NoDup_cons.
  intros (H1 & H12 & Hx & H2). split.
  - split_and!; [done| |done].
    intros b Hb Hb2. apply (H12 b Hb). by right.
  - intros y [Hy|Hy]%elem_of_app Heq.
    + apply (H12 (f y)); [by apply list_elem_of_fmap_2|].
      rewrite Heq. by left.
    + apply Hx. rewrite <- Heq. by apply list_elem_of_fmap_2.
Qed.

Lemma Inv_boot t0 page : Inv (boot t0 page).
Proof.
  split; simpl; try done; try apply NoDup_nil_2.
  - intros n [_ ?]%elem_of_seq. lia.
  - intros it Hit. by apply elem_of_nil in Hit.
  - intros it Hit. by apply elem_of_nil in Hit.
Qed.

Lemma filter_fresh (b : list node_id) (n : node_id) :
  (∀ m, m ∈ b → m < n) → filter (fun m => m ≠ n) b = b.
Proof.
  intros Hb. induction b as [|m b IH]; [done|].
  rewrite filter_cons. rewrite decide_True.
  - f_equal. apply IH. intros k Hk. apply Hb. by right.
  - assert (m < n) by (apply Hb; by left). lia.
Qed.

Lemma shown_body w : Inv w → body (shown w) = body w ++ [next_node w].
Proof. intros HI. simpl. by rewrite filter_fresh by apply HI. Qed.

Lemma Inv_shown w : Inv w → Inv (shown w).
Proof.
  intros HI. pose proof (shown_body w HI) as Hbody.
  destruct HI as [Ht Hnd Hndr Hb Hf Hl Hu].
  split.
  - simpl. by rewrite !fmap_app, Ht.
  - simpl. rewrite fmap_app. apply NoDup_app. split_and!; [done| |apply NoDup_singleton].
    intros c (it & -> & Hit)%list_elem_of_fmap [= Heq]%list_elem_of_singleton.
    apply Hf in Hit. lia.
  - simpl. rewrite fmap_app. apply NoDup_app. split_and!; [done| |apply NoDup_singleton].
    intros c (it & -> & Hit)%list_elem_of_fmap [= Heq]%list_elem_of_singleton.
    apply Hf in Hit. lia.
  - rewrite Hbody. simpl. intros n [Hn| ->%list_elem_of_singleton]%elem_of_app; [|lia].
    apply Hb in Hn. lia.
  - simpl. intros it [Hit| ->%list_elem_of_singleton]%elem_of_app; simpl; [|lia].
    apply Hf in Hit. lia.
  - intros it Hit. unfold live. rewrite Hbody. simpl in *.
    apply elem_of_app in Hit as [Hit| ->%list_elem_of_singleton]; simpl.
    + destruct (Hf _ Hit) as [Hc Hr]. destruct (Hl _ Hit) as (Hlb & Hln & Hlr).
      split_and!.
      * apply elem_of_app. by left.
      * rewrite lookup_insert_ne by lia. done.
      * rewrite lookup_insert_ne by lia. done.
    + split_and!.
      * apply elem_of_app. right. by apply list_elem_of_singleton.
      * rewrite lookup_insert_eq. by eexists.
      * by rewrite lookup_insert_eq.
  - done.
Qed.

(** Under the invariant the [k]-th timer belongs to the [k]-th record,
    which is the one the callback finds and splices out. *)
Lemma timer_record w k t :
  Inv w → timers w !! k = Some t →
  ∃ it l1 l2,
    queue w = l1 ++ it :: l2 ∧ length l1 = k ∧ msgContainer it = captured t
    ∧ find (fun item => bool_decide (msgContainer item = captured t)) (queue w) = Some it
    ∧ splice (indexOf it (queue w)) 1 (queue w) = l1 ++ l2.
Proof.
  intros HI Hk.
  assert ((msgContainer <$> queue w) !! k = Some (captured t)) as Hq.
  { by rewrite <- (inv_timers w HI), list_lookup_fmap, Hk. }
  destruct (find _ (queue w)) as [it|] eqn:Hf.
  - destruct (find_splice _ _ _ Hf) as (l1 & l2 & Hsplit & Hp & _ & Hs).
    apply bool_decide_eq_true in Hp.
    exists it, l1, l2. split_and!; try done.
    apply (NoDup_lookup (msgContainer <$> queue w) _ _ (captured t));
      [apply HI| |done].
    rewrite Hsplit, list_lookup_fmap, list_lookup_middle by done.
    simpl. by rewrite Hp.
  - exfalso. apply find_None in Hf. rewrite Forall_forall in Hf.
    apply list_lookup_fmap_Some in Hq as (it & Hc & Hit).
    apply list_elem_of_lookup_2 in Hit. apply Hf in Hit.
    apply bool_decide_eq_false in Hit. done.
Qed.

Lemma fire_expired w k t :
  Inv w → timers w !! k = Some t → due t ≤ now w →
  ∃ it l1 l2,
    queue w = l1 ++ it :: l2 ∧ length l1 = k ∧ msgContainer it = captured t
    ∧ fire k w = Some (expired it (l1 ++ l2) (set_timers (delete k) w)).
Proof.
  intros HI Hk Hdue.
  destruct (timer_record w k t HI Hk) as (it & l1 & l2 & Hq & Hlen & Hc & Hf & Hs).
  exists it, l1, l2. split_and!; try done.
  unfold fire. rewrite Hk, decide_True by done.
  rewrite (expire_found _ _ it); simpl; [by rewrite Hs|done|].
  apply (inv_live w HI). rewrite Hq. apply elem_of_app. right. by left.
Qed.

Lemma Inv_expired w it l1 l2 :
  Inv w → queue w = l1 ++ it :: l2 →
  Inv (expired it (l1 ++ l2) (set_timers (delete (length l1)) w)).
Proof.
  intros [Ht Hnd Hndr Hb Hf Hl Hu] Hq.
  rewrite Hq in Ht, Hnd, Hndr.
  apply NoDup_fmap_middle in Hnd as [Hnd Hne].
  apply NoDup_fmap_middle in Hndr as [Hndr Hner].
  assert (∀ b, b ∈ l1 ++ l2 → b ∈ queue w) as Hsub.
  { intros b. rewrite Hq, !elem_of_app, elem_of_cons. tauto. }
  split; simpl; try done.
  - rewrite list_fmap_delete, Ht.
    rewrite !fmap_app, fmap_cons.
    replace (length l1) with (length (msgContainer <$> l1)) by apply length_fmap.
    apply delete_middle.
  - intros n [_ Hn]%list_elem_of_filter. by apply Hb.
  - intros b Hb'. by apply Hf, Hsub.
  - intros b Hb'. destruct (Hl b (Hsub b Hb')) as (Hlb & Hln & Hlr).
    unfold live; simpl. split_and!.
    + apply list_elem_of_filter. split; [by apply Hne|done].
    + done.
    + rewrite lookup_alter_ne; [done|]. intros Heq. by apply (Hner b).
Qed.

Lemma Inv_fire w k w' : Inv w → fire k w = Some w' → Inv w'.
Proof.
  intros HI Hfire.
  destruct (timers w !! k) as [t|] eqn:Hk; [|by unfold fire in Hfire; rewrite Hk in Hfire].
  destruct (decide (due t ≤ now w)) as [Hdue|Hdue];
    [|by unfold fire in Hfire; rewrite Hk, decide_False in Hfire].
  destruct (fire_expired w k t HI Hk Hdue) as (it & l1 & l2 & Hq & Hlen & _ & Hfire').
  rewrite Hfire' in Hfire. injection Hfire as <-. subst k.
  by apply Inv_expired.
Qed.

Lemma Inv_tick w : Inv w → Inv (set_now S w).
Proof. intros [? ? ? ? ? ? ?]. by split. Qed.

Lemma Inv_step e w w' : Inv w → step e w = Some w' → Inv w'.
Proof.
  intros HI. destruct e as [| |k]; simpl.
  - intros [= <-]. rewrite onShow_shown. by apply Inv_shown.
  - intros [= <-]. by apply Inv_tick.
  - by apply Inv_fire.
Qed.

Lemma Inv_run evs : ∀ w w', Inv w → run evs w = Some w' → Inv w'.
Proof.
  induction evs as [|e evs IH]; simpl; intros w w' HI.
  - by intros [= <-].
  - destruct (step e w) as [w1|] eqn:Hs; simpl; [|done].
    apply IH. by eapply Inv_step.
Qed.

Lemma reachable_Inv w : reachable w → Inv w.
Proof. intros (t0 & page & evs & Hrun). eapply Inv_run; [apply Inv_boot|done]. Qed.

Lemma run_app evs1 evs2 w :
  run (evs1 ++ evs2) w = w1 ← run evs1 w; run evs2 w1.
Proof.
  revert w. induction evs1 as [|e evs1 IH]; simpl; intros w; [done|].
  destruct (step e w); simpl; [apply IH|done].
Qed.

Lemma reachable_run evs w w' : reachable w → run evs w = Some w' → reachable w'.
Proof.
  intros (t0 & page & evs0 & Hrun) Hrun'.
  exists t0, page, (evs0 ++ evs). by rewrite run_app, Hrun.
Qed.

Lemma reachable_boot t0 page : reachable (boot t0 page).
Proof. by exists t0, page, []. Qed.

(** ** The message component *)

(** C8.  [Message] takes no input, reads and writes nothing, and
    returns the same element on every call: a [div] whose only child is
    the fixed text.  Whatever the world, the call completes, yields
    that element and leaves the world exactly as it was. *)
Theorem Message_static :
  ∀ w : World, Message w = Ok (RElem "div" [RText "提示组件"]) w.
Proof. intros w. reflexivity. Qed.

(** ** Offsets are rendered injectively *)

Lemma string_length_app (s t : string) :
  String.length (s +:+ t) = String.length s + String.length t.
Proof. induction s as [|a s IH]; simpl; [done|]. by rewrite IH. Qed.

Lemma string_app_inv_tail (s1 s2 t : string) :
  s1 +:+ t = s2 +:+ t → s1 = s2.
Proof.
  revert s2. induction s1 as [|a s1 IH]; intros [|b s2]; simpl; intros H.
  - done.
  - apply (f_equal String.length) in H. simpl in H.
    rewrite !string_length_app in H. simpl in H. lia.
  - apply (f_equal String.length) in H. simpl in H.
    rewrite !string_length_app in H. simpl in H. lia.
  - injection H as -> H. f_equal. by apply IH.
Qed.

#[global] Instance px_inj : Inj (=) (=) px.
Proof.
  intros n m H. unfold px in H.
  apply string_app_inv_tail in H. by apply (inj pretty) in H.
Qed.

#[global] Instance offset_inj : Inj (=) (=) (fun i : nat => Some (px (i * 50))).
Proof. intros i j [= H%(inj px)]. lia. Qed.

(** ** Runs in which no timer fires *)

Lemma offsets_shown w :
  Inv w → offsets (shown w) = offsets w ++ [Some (px (length (queue w) * 50))].
Proof.
  intros HI. unfold offsets. simpl queue. rewrite fmap_app. f_equal.
  - apply list_fmap_ext. intros i b Hb%list_elem_of_lookup_2.
    apply (inv_fresh w HI) in Hb as [Hb _].
    unfold top_of. simpl. by rewrite lookup_insert_ne by lia.
  - simpl. unfold top_of. simpl. by rewrite lookup_insert_eq.
Qed.

Lemma quiet_run evs :
  ∀ w, Inv w → quiet evs →
  ∃ w' new tnew,
    run evs w = Some w'
    ∧ queue w' = queue w ++ new
    ∧ timers w' = timers w ++ tnew
    ∧ body w' = body w ++ (msgContainer <$> new)
    ∧ msgContainer <$> new = seq (next_node w) (length (show_times evs (now w)))
    ∧ root <$> new = seq (next_root w) (length (show_times evs (now w)))
    ∧ captured <$> tnew = msgContainer <$> new
    ∧ due <$> tnew = (fun t => t + 2000) <$> show_times evs (now w)
    ∧ offsets w' = offsets w
        ++ ((fun i => Some (px (i * 50)))
              <$> seq (length (queue w)) (length (show_times evs (now w)))).
Proof.
  induction evs as [|e evs IH]; intros w HI Hq.
  - exists w, [], []. simpl. by rewrite !app_nil_r.
  - apply Forall_cons in Hq as [He Hq]. destruct e as [| |k]; [| |done].
    + destruct (IH (shown w) (Inv_shown w HI) Hq)
        as (w' & new & tnew & Hrun & Hqueue & Htimers & Hbody & Hc & Hr & Hcap & Hdue & Hoff).
      exists w', (mkItem (next_node w) (next_root w) :: new),
        (mkTimer (now w + 2000) (next_node w) :: tnew).
      cbn [run step show_times length]. rewrite onShow_shown. cbn [settle mbind option_bind].
      rewrite !fmap_cons. cbn [msgContainer root due captured seq].
      split_and!.
      * done.
      * rewrite Hqueue. cbn [queue shown]. by rewrite <- app_assoc.
      * rewrite Htimers. cbn [timers shown]. by rewrite <- app_assoc.
      * rewrite Hbody, (shown_body w HI). by rewrite <- app_assoc.
      * by rewrite Hc.
      * by rewrite Hr.
      * by rewrite Hcap.
      * by rewrite Hdue.
      * rewrite Hoff, (offsets_shown w HI). cbn [queue shown].
        rewrite length_app. cbn [length]. rewrite <- app_assoc. 
        by replace (length (queue w) + 1) with (S (length (queue w))) by lia.
    + destruct (IH (set_now S w) (Inv_tick w HI) Hq)
        as (w' & new & tnew & Hrun & Hqueue & Htimers & Hbody & Hc & Hr & Hcap & Hdue & Hoff).
      exists w', new, tnew. simpl. by split_and!.
Qed.
Lemma quiet_repeat N : quiet (repeat EvShow N).
Proof. induction N; simpl; by constructor. Qed.

Lemma show_times_repeat N t : show_times (repeat EvShow N) t = repeat t N.
Proof. induction N as [|N IH]; simpl; [done|]. by rewrite IH. Qed.

Lemma run_repeat_show_now N : ∀ w w',
  run (repeat EvShow N) w = Some w' → now w' = now w.
Proof.
  induction N as [|N IH]; simpl; intros w w'.
  - by intros [= <-].
  - rewrite onShow_shown. simpl. by intros ->%IH.
Qed.

(** ** Stacking offsets of a burst *)

(** C1.  N calls of [window.onShow] made back to back into an empty
    queue leave exactly N records in the queue; the i-th record
    (i = 0..N-1) sits at [top = "{i * 50}px"], and the N offsets are
    pairwise distinct. *)
Theorem burst_offsets (w : World) (N : nat) :
  reachable w → queue w = [] →
  ∃ w', run (repeat EvShow N) w = Some w'
        ∧ length (queue w') = N
        ∧ offsets w' = (fun i => Some (px (i * 50))) <$> seq 0 N
        ∧ (∀ i, i < N → ∃ it, queue w' !! i = Some it
                               ∧ top_of w' it = Some (px (i * 50)))
        ∧ NoDup (offsets w')
        ∧ now w' = now w.
Proof.
  intros HI%reachable_Inv Hempty.
  destruct (quiet_run (repeat EvShow N) w HI (quiet_repeat N))
    as (w' & new & tnew & Hrun & Hqueue & _ & _ & Hc & _ & _ & _ & Hoff).
  rewrite show_times_repeat, repeat_length in *.
  assert (offsets w' = (fun i => Some (px (i * 50))) <$> seq 0 N) as Hoff'.
  { rewrite Hoff. unfold offsets at 1. by rewrite Hempty. }
  assert (length (queue w') = N) as Hlen.
  { rewrite Hqueue, Hempty. simpl.
    rewrite <- (length_fmap msgContainer), Hc. apply length_seq. }
  exists w'. split_and!; try done.
  - intros i Hi.
    destruct (lookup_lt_is_Some_2 (queue w') i) as [it Hit]; [lia|].
    exists it. split; [done|].
    assert (offsets w' !! i = Some (top_of w' it)) as Hi1.
    { unfold offsets. by rewrite list_lookup_fmap, Hit. }
    rewrite Hoff', list_lookup_fmap, lookup_seq_lt in Hi1 by done.
    simpl in Hi1. by injection Hi1 as <-.
  - rewrite Hoff'. apply (NoDup_fmap_2 _), NoDup_seq.
  - by eapply run_repeat_show_now.
Qed.

Lemma burst_offsets_witness :
  reachable (boot 0 []) ∧ queue (boot 0 []) = []
  ∧ ∃ w', run (repeat EvShow 3) (boot 0 []) = Some w'
          ∧ length (queue w') = 3
          ∧ offsets w' = (fun i => Some (px (i * 50))) <$> seq 0 3
          ∧ (∀ i, i < 3 → ∃ it, queue w' !! i = Some it
                                 ∧ top_of w' it = Some (px (i * 50)))
          ∧ NoDup (offsets w')
          ∧ now w' = now (boot 0 []).
Proof.
  assert (reachable (boot 0 [])) as Hr by (exists 0, [], []; reflexivity).
  split; [exact Hr|]. split; [reflexivity|].
  exact (burst_offsets (boot 0 []) 3 Hr eq_refl).
Defined.

(** ** Every call makes one toast *)

(** C6.  [window.onShow] takes no argument and returns no value (its
    result is the unit value).  A call appends exactly one record to the
    queue, attaches exactly one new container as last child of the body
    with the message mounted in it, and arms exactly one timer, due
    2000 ms after the call and bound to that container; records already
    present stay live.  Any number of calls, with any delays between
    them and no expiry yet, yields that many new records, all live at
    once, each with a timer of its own due 2000 ms after its own call. *)
Theorem onShow_one_toast (w : World) :
  reachable w →
  (∃ w', onShow w = Ok tt w'
     ∧ queue w' = queue w ++ [mkItem (next_node w) (next_root w)]
     ∧ (next_node w ∉ body w)
     ∧ body w' = body w ++ [next_node w]
     ∧ timers w' = timers w ++ [mkTimer (now w + 2000) (next_node w)]
     ∧ (∀ b, b ∈ queue w' → live w' b))
  ∧ (∀ evs, quiet evs →
     ∃ w' new tnew,
       run evs w = Some w'
       ∧ queue w' = queue w ++ new
       ∧ length new = length (show_times evs (now w))
       ∧ NoDup (msgContainer <$> new)
       ∧ body w' = body w ++ (msgContainer <$> new)
       ∧ timers w' = timers w ++ tnew
       ∧ captured <$> tnew = msgContainer <$> new
       ∧ due <$> tnew = (fun t => t + 2000) <$> show_times evs (now w)
       ∧ (∀ b, b ∈ queue w' → live w' b)).
Proof.
  intros HI%reachable_Inv. split.
  - exists (shown w). split_and!; try done.
    + apply onShow_shown.
    + intros Hin%(inv_body w HI). lia.
    + by apply shown_body.
    + apply inv_live. by apply Inv_shown.
  - intros evs Hq.
    destruct (quiet_run evs w HI Hq)
      as (w' & new & tnew & Hrun & Hqueue & Htimers & Hbody & Hc & Hr & Hcap & Hdue & Hoff).
    exists w', new, tnew. split_and!; try done.
    + by rewrite <- (length_fmap msgContainer), Hc, length_seq.
    + rewrite Hc. apply NoDup_seq.
    + apply inv_live. by eapply Inv_run.
Qed.

Lemma onShow_one_toast_witness :
  reachable (boot 7 [])
  ∧ ∃ w', onShow (boot 7 []) = Ok tt w'
          ∧ queue w' = [mkItem 0 0]
          ∧ (0 ∉ body (boot 7 []))
          ∧ body w' = [0]
          ∧ timers w' = [mkTimer 2007 0]
          ∧ (∀ b, b ∈ queue w' → live w' b).
Proof.
  assert (reachable (boot 7 [])) as Hr by (exists 7, [], []; reflexivity).
  split; [exact Hr|].
  exact (proj1 (onShow_one_toast (boot 7 []) Hr)).
Defined.

(** ** No bound on the queue *)

(** C7.  The queue has no capacity limit and no call is refused,
    merged or dropped: whatever the queue already holds, calls made
    before any expiry each complete without exception and each add one
    record, so N calls into an empty queue give length exactly N, and
    for every bound a longer queue is reached by calling further. *)
Theorem no_backpressure (w : World) (evs : list event) :
  reachable w → quiet evs →
  ∃ w' new,
    run evs w = Some w'
    ∧ queue w' = queue w ++ new
    ∧ length new = length (show_times evs (now w))
    ∧ (queue w = [] → length (queue w') = length (show_times evs (now w)))
    ∧ uncaught w' = []
    ∧ (∀ B, ∃ N w'', run (repeat EvShow N) w' = Some w''
                     ∧ B < length (queue w'')).
Proof.
  intros HI%reachable_Inv Hq.
  destruct (quiet_run evs w HI Hq)
    as (w' & new & tnew & Hrun & Hqueue & _ & _ & Hc & _).
  assert (length new = length (show_times evs (now w))) as Hlen.
  { by rewrite <- (length_fmap msgContainer), Hc, length_seq. }
  assert (Inv w') as HI' by by eapply Inv_run.
  exists w', new. split_and!; try done.
  - intros Hempty. by rewrite Hqueue, Hempty.
  - apply HI'.
  - intros B.
    destruct (quiet_run (repeat EvShow (S B)) w' HI' (quiet_repeat _))
      as (w'' & new' & _ & Hrun' & Hqueue' & _ & _ & Hc' & _).
    exists (S B), w''. split; [done|].
    rewrite Hqueue', length_app, <- (length_fmap msgContainer new'), Hc'.
    rewrite length_seq, show_times_repeat, repeat_length. lia.
Qed.

Lemma no_backpressure_witness :
  reachable (boot 0 []) ∧ quiet [EvShow; EvTick; EvShow; EvShow]
  ∧ ∃ w' new,
      run [EvShow; EvTick; EvShow; EvShow] (boot 0 []) = Some w'
      ∧ queue w' = new
      ∧ length new = 3
      ∧ (queue (boot 0 []) = [] → length (queue w') = 3)
      ∧ uncaught w' = []
      ∧ (∀ B, ∃ N w'', run (repeat EvShow N) w' = Some w''
                       ∧ B < length (queue w'')).
Proof.
  assert (reachable (boot 0 [])) as Hr by (exists 0, [], []; reflexivity).
  assert (quiet [EvShow; EvTick; EvShow; EvShow]) as Hq by (repeat constructor).
  split; [exact Hr|]. split; [exact Hq|].
  exact (no_backpressure (boot 0 []) [EvShow; EvTick; EvShow; EvShow] Hr Hq).
Defined.

(** ** What an expiry touches *)

Lemma fire_inv k w w' :
  fire k w = Some w' →
  ∃ t, timers w !! k = Some t ∧ due t ≤ now w
       ∧ w' = settle (expire (captured t) (set_timers (delete k) w)).
Proof.
  unfold fire. destruct (timers w !! k) as [t|]; [|done].
  destruct (decide _); [|done]. intros [= <-]. by exists t.
Qed.

Lemma fire_frame k w w' :
  fire k w = Some w' →
  nodes w' = nodes w ∧ timers w' = delete k (timers w) ∧ now w' = now w
  ∧ next_node w' = next_node w ∧ next_root w' = next_root w
  ∧ queue w' ⊆ queue w.
Proof.
  intros (t & _ & _ & ->)%fire_inv.
  pose proof (expire_frame (captured t) (set_timers (delete k) w)) as Hf.
  destruct (expire _ _); simpl in *; apply Hf.
Qed.

Lemma step_nodes e w w' :
  step e w = Some w' →
  next_node w ≤ next_node w'
  ∧ ∀ c, c < next_node w → nodes w' !! c = nodes w !! c.
Proof.
  destruct e as [| |k]; simpl.
  - intros [= <-]. rewrite onShow_shown. simpl. split; [lia|].
    intros c Hc. by rewrite lookup_insert_ne by lia.
  - by intros [= <-].
  - intros (-> & _ & _ & -> & _)%fire_frame. done.
Qed.

Lemma run_nodes evs : ∀ w w',
  run evs w = Some w' →
  next_node w ≤ next_node w'
  ∧ ∀ c, c < next_node w → nodes w' !! c = nodes w !! c.
Proof.
  induction evs as [|e evs IH]; simpl; intros w w'.
  - by intros [= <-].
  - destruct (step e w) as [w1|] eqn:Hs; simpl; [|done].
    intros [Hle Hn]%IH. apply step_nodes in Hs as [Hle1 Hn1].
    split; [lia|]. intros c Hc. rewrite Hn by lia. by apply Hn1.
Qed.

Lemma filter_all {A} (P : A → Prop) `{∀ x, Decision (P x)} (l : list A) :
  (∀ x, x ∈ l → P x) → filter P l = l.
Proof.
  induction l as [|x l IH]; intros Hl; [done|].
  rewrite filter_cons, decide_True by (apply Hl; by left).
  f_equal. apply IH. intros y Hy. apply Hl. by right.
Qed.

(** A successful firing, seen from the queue: the record whose
    container the timer captured is the one that goes. *)
Lemma fire_record w k w' :
  Inv w → fire k w = Some w' →
  ∃ t a l1 l2,
    timers w !! k = Some t ∧ due t ≤ now w
    ∧ queue w = l1 ++ a :: l2 ∧ length l1 = k ∧ msgContainer a = captured t
    ∧ w' = expired a (l1 ++ l2) (set_timers (delete k) w)
    ∧ (∀ b, b ∈ l1 ++ l2 → msgContainer b ≠ msgContainer a ∧ root b ≠ root a).
Proof.
  intros HI Hfire.
  destruct (fire_inv k w w' Hfire) as (t & Hk & Hdue & _).
  destruct (fire_expired w k t HI Hk Hdue) as (a & l1 & l2 & Hq & Hlen & Hc & Hfire').
  rewrite Hfire' in Hfire. injection Hfire as <-.
  exists t, a, l1, l2. split_and!; try done.
  intros b Hb. split.
  - eapply NoDup_fmap_middle; [|done]. rewrite <- Hq. apply HI.
  - eapply NoDup_fmap_middle; [|done]. rewrite <- Hq. apply HI.
Qed.

(** ** Expiry is isolated *)

(** C3.  When a timer fires, the record removed is the one whose
    container is identical to the container the callback captured,
    wherever it sits in the array; the queue afterwards is the old
    queue without that record, in the same order, and every other
    record keeps its container, its root, its element attributes, and
    is still mounted and attached. *)
Theorem expiry_isolated (w : World) (k : nat) (w' : World) :
  reachable w → fire k w = Some w' →
  ∃ t a,
    timers w !! k = Some t ∧ a ∈ queue w ∧ msgContainer a = captured t
    ∧ queue w' = filter (fun it => msgContainer it ≠ captured t) (queue w)
    ∧ ∀ b, b ∈ queue w → b ≠ a →
           b ∈ queue w'
           ∧ roots w' !! root b = roots w !! root b
           ∧ nodes w' !! msgContainer b = nodes w !! msgContainer b
           ∧ live w' b.
Proof.
  intros HI%reachable_Inv Hfire.
  destruct (fire_record w k w' HI Hfire)
    as (t & a & l1 & l2 & Hk & Hdue & Hq & Hlen & Hc & -> & Hne).
  assert (Inv (expired a (l1 ++ l2) (set_timers (delete k) w))) as HI'.
  { subst k. by apply Inv_expired. }
  exists t, a. split_and!; try done.
  - rewrite Hq. apply elem_of_app. right. by left.
  - simpl. rewrite Hq, filter_app, filter_cons, decide_False by (intros ?; done).
    rewrite <- Hc. rewrite !filter_all; [done| |].
    + intros b Hb. apply Hne, elem_of_app. by right.
    + intros b Hb. apply Hne, elem_of_app. by left.
  - intros b Hb Hba.
    assert (b ∈ l1 ++ l2) as Hb'.
    { rewrite Hq in Hb. apply elem_of_app in Hb as [?|[?|?]%elem_of_cons];
        [apply elem_of_app; by left|done|apply elem_of_app; by right]. }
    split_and!; try done.
    + simpl. apply lookup_alter_ne. intros Heq. by apply (Hne b Hb').
    + by apply (inv_live _ HI').
Qed.

(** ** The queue holds only live records *)

(** C4.  Between any two tasks every record in the queue is live: its
    container is attached to the body and its root shows the message in
    that container; no released record is in the queue.  When a timer
    fires, its record leaves the queue with its root unmounted and its
    container detached, and the records that remain are all live. *)
Theorem queue_invariant (w : World) :
  reachable w →
  (∀ it, it ∈ queue w → live w it)
  ∧ (∀ it, released w it → it ∉ queue w)
  ∧ (∀ k w', fire k w = Some w' →
       ∃ t a, timers w !! k = Some t ∧ a ∈ queue w
              ∧ msgContainer a = captured t
              ∧ (a ∉ queue w') ∧ released w' a
              ∧ (∀ it, it ∈ queue w' → live w' it)).
Proof.
  intros HI%reachable_Inv. split_and!.
  - apply HI.
  - intros it [Hb _] [Hl _]%(inv_live w HI). done.
  - intros k w' Hfire.
    destruct (fire_record w k w' HI Hfire)
      as (t & a & l1 & l2 & Hk & Hdue & Hq & Hlen & Hc & -> & Hne).
    assert (a ∈ queue w) as Ha.
    { rewrite Hq. apply elem_of_app. right. by left. }
    exists t, a. split_and!; try done.
    + simpl. intros Hin. by destruct (Hne a Hin).
    + destruct (inv_live w HI a Ha) as (_ & _ & Hr).
      split; simpl.
      * intros [? _]%list_elem_of_filter. done.
      * by rewrite lookup_alter_eq, Hr.
    + apply inv_live. subst k. by apply Inv_expired.
Qed.

(** ** Offsets are assigned once *)

(** C5.  The [top] written when a toast is created is never written
    again.  For a record in the queue, neither the expiry of some timer
    nor any later sequence of calls, ticks and expiries changes the
    offset of its container; in particular the records that survive an
    expiry are records that were there before, at the same offsets. *)
Theorem offsets_stable (w : World) (it : Item) :
  reachable w → it ∈ queue w →
  (∀ k w', fire k w = Some w' →
     top_of w' it = top_of w it
     ∧ ∀ b, b ∈ queue w' → b ∈ queue w ∧ top_of w' b = top_of w b)
  ∧ (∀ evs w', run evs w = Some w' → top_of w' it = top_of w it).
Proof.
  intros HI%reachable_Inv Hit. split.
  - intros k w' (Hn & _ & _ & _ & _ & Hsub)%fire_frame.
    unfold top_of. rewrite Hn. split; [done|]. intros b Hb. split; [|done].
    by apply Hsub.
  - intros evs w' [_ Hn]%run_nodes. unfold top_of. rewrite Hn; [done|].
    by apply (inv_fresh w HI).
Qed.

(** ** The callback always finds its record *)

(** C9.  For every pending timer the [find] of line 24 returns a
    record, the one holding the captured container, so the non-null
    assertion is never wrong; the callback completes without throwing
    and the queue is shorter by exactly one afterwards. *)
Theorem expiry_lookup_succeeds (w : World) (k : nat) (t : Timer) :
  reachable w → timers w !! k = Some t →
  ∃ it w',
    find (fun item => bool_decide (msgContainer item = captured t)) (queue w) = Some it
    ∧ msgContainer it = captured t
    ∧ expire (captured t) (set_timers (delete k) w) = Ok tt w'
    ∧ S (length (queue w')) = length (queue w)
    ∧ uncaught w' = []
    ∧ (due t ≤ now w → fire k w = Some w').
Proof.
  intros HI%reachable_Inv Hk.
  destruct (timer_record w k t HI Hk) as (it & l1 & l2 & Hq & Hlen & Hc & Hf & Hs).
  exists it, (expired it (l1 ++ l2) (set_timers (delete k) w)).
  assert (expire (captured t) (set_timers (delete k) w)
          = Ok tt (expired it (l1 ++ l2) (set_timers (delete k) w))) as He.
  { rewrite (expire_found _ _ it); simpl; [by rewrite Hs|done|].
    apply (inv_live w HI). rewrite Hq. apply elem_of_app. right. by left. }
  split_and!; try done.
  - simpl. rewrite Hq, !length_app. simpl. lia.
  - apply HI.
  - intros Hdue. unfold fire. by rewrite Hk, decide_True, He.
Qed.

(** ** The punctual scheduler is one of the schedules *)

Lemma first_due_Some w k :
  first_due w = Some k →
  ∃ t, timers w !! k = Some t ∧ due t ≤ now w.
Proof.
  unfold first_due. destruct (list_find _ _) as [[i t]|] eqn:Hf; simpl; [|done].
  intros [= <-]. apply list_find_Some in Hf as (Hi & Hd & _). by exists t.
Qed.

Lemma first_due_None w :
  first_due w = None → ∀ t, t ∈ timers w → now w < due t.
Proof.
  unfold first_due. destruct (list_find _ _) as [[i t]|] eqn:Hf; simpl; [done|].
  intros _ t Ht. apply list_find_None in Hf. rewrite Forall_forall in Hf.
  specialize (Hf t Ht). lia.
Qed.

Lemma fire_enabled w k t :
  timers w !! k = Some t → due t ≤ now w → is_Some (fire k w).
Proof. intros Hk Hd. unfold fire. rewrite Hk, decide_True by done. by eexists. Qed.

Lemma flush_n_run n : ∀ w, ∃ evs, run evs w = Some (flush_n n w).
Proof.
  induction n as [|n IH]; intros w; simpl.
  - by exists [].
  - destruct (first_due w) as [k|]; [|by exists []].
    destruct (fire k w) as [w1|] eqn:Hf; [|by exists []].
    destruct (IH w1) as [evs Hevs].
    exists (EvFire k :: evs). simpl. by rewrite Hf.
Qed.

Lemma flush_n_now n : ∀ w, now (flush_n n w) = now w.
Proof.
  induction n as [|n IH]; intros w; simpl; [done|].
  destruct (first_due w) as [k|]; [|done].
  destruct (fire k w) as [w1|] eqn:Hf; [|done].
  rewrite IH. by apply fire_frame in Hf as (_ & _ & -> & _).
Qed.

(** After a flush no pending timer has reached its deadline. *)
Lemma flush_n_settled n : ∀ w,
  length (timers w) ≤ n →
  ∀ t, t ∈ timers (flush_n n w) → now (flush_n n w) < due t.
Proof.
  induction n as [|n IH]; intros w Hlen; simpl.
  - destruct (timers w); [|simpl in Hlen; lia].
    intros t Ht. by apply elem_of_nil in Ht.
  - destruct (first_due w) as [k|] eqn:Hfd; [|by apply first_due_None].
    destruct (first_due_Some w k Hfd) as (t & Hk & Hd).
    destruct (fire_enabled w k t Hk Hd) as [w1 Hf]. rewrite Hf.
    apply IH. apply fire_frame in Hf as (_ & -> & _).
    rewrite length_delete by eauto. lia.
Qed.

Lemma flush_settled w t : t ∈ timers (flush w) → now (flush w) < due t.
Proof. by apply flush_n_settled. Qed.

Lemma elapse_run d : ∀ w, ∃ evs, run evs w = Some (elapse d w).
Proof.
  induction d as [|d IH]; intros w; simpl.
  - by exists [].
  - destruct (flush_n_run (length (timers (set_now S w))) (set_now S w)) as [evs1 H1].
    destruct (IH (flush (set_now S w))) as [evs2 H2].
    exists (EvTick :: evs1 ++ evs2). simpl.
    rewrite run_app, H1. simpl. done.
Qed.

Lemma elapse_now d : ∀ w, now (elapse d w) = now w + d.
Proof.
  induction d as [|d IH]; intros w; simpl; [lia|].
  rewrite IH. unfold flush. rewrite flush_n_now. simpl. lia.
Qed.

Lemma play_run acts : ∀ w, ∃ evs, run evs w = Some (play acts w).
Proof.
  induction acts as [|a acts IH]; intros w; simpl.
  - by exists [].
  - destruct (IH (perform a w)) as [evs2 H2].
    destruct a as [|d]; simpl in *.
    + exists (EvShow :: evs2). done.
    + destruct (elapse_run d w) as [evs1 H1].
      exists (evs1 ++ evs2). by rewrite run_app, H1.
Qed.

(** A timer that is not yet due is never found overdue by the punctual
    scheduler. *)
Lemma elapse_punctual tm d : ∀ w,
  (tm ∈ timers w → now w < due tm) →
  tm ∈ timers (elapse d w) → now (elapse d w) < due tm.
Proof.
  induction d as [|d IH]; intros w Hw; simpl; [done|].
  apply IH. apply flush_settled.
Qed.

Lemma play_punctual tm acts : ∀ w,
  (tm ∈ timers w → now w < due tm) →
  tm ∈ timers (play acts w) → now (play acts w) < due tm.
Proof.
  induction acts as [|a acts IH]; intros w Hw; simpl; [done|].
  apply IH. destruct a as [|d]; simpl.
  - rewrite onShow_shown. simpl.
    intros [Ht| ->%list_elem_of_singleton]%elem_of_app; [by apply Hw|simpl; lia].
  - by apply elapse_punctual.
Qed.

(** ** Following one toast *)

Lemma elem_of_delete_ne {A} (l : list A) (k : nat) (x y : A) :
  x ∈ l → l !! k = Some y → x ≠ y → x ∈ delete k l.
Proof.
  intros [i Hi]%list_elem_of_lookup Hk Hne.
  destruct (decide (i < k)) as [Hlt|Hge].
  - apply (list_elem_of_lookup_2 _ i). by rewrite list_lookup_delete_lt.
  - assert (i ≠ k) by (intros ->; congruence).
    destruct i as [|i]; [lia|].
    apply (list_elem_of_lookup_2 _ i). rewrite list_lookup_delete_ge by lia. done.
Qed.

Lemma tracked_shown w :
  Inv w →
  tracked (mkItem (next_node w) (next_root w))
          (mkTimer (now w + 2000) (next_node w)) (shown w).
Proof.
  intros HI. pose proof (Inv_shown w HI) as HI'.
  split_and!; try done; simpl; try lia.
  left. split_and!.
  - simpl. apply elem_of_app. right. by apply list_elem_of_singleton.
  - simpl. apply elem_of_app. right. by apply list_elem_of_singleton.
  - apply (inv_live _ HI'). simpl. apply elem_of_app. right.
    by apply list_elem_of_singleton.
Qed.

(** Among the pending timers only the toast's own has its container. *)
Lemma own_timer it tm w k t :
  Inv w → captured tm = msgContainer it → tm ∈ timers w →
  timers w !! k = Some t → captured t = msgContainer it → t = tm.
Proof.
  intros HI Hcap [j Hj]%list_elem_of_lookup Hk Hc.
  assert (NoDup (captured <$> timers w)) as Hnd.
  { rewrite (inv_timers w HI). apply HI. }
  assert (j = k) as ->; [|congruence].
  apply (NoDup_lookup _ _ _ (msgContainer it) Hnd).
  - rewrite list_lookup_fmap, Hj. simpl. by rewrite Hcap.
  - rewrite list_lookup_fmap, Hk. simpl. by rewrite Hc.
Qed.

Lemma tracked_step it tm e w w' :
  tracked it tm w → step e w = Some w' → tracked it tm w'.
Proof.
  intros (HI & Hcap & Hc & Hr & Hst) Hstep.
  pose proof (Inv_step e w w' HI Hstep) as HI'.
  destruct e as [| |k]; simpl in Hstep.
  - injection Hstep as <-. rewrite onShow_shown in *. simpl.
    split_and!; try done; simpl; try lia.
    destruct Hst as [(Hq & Ht & Hl)|(Hq & Hq' & [Hb Hrt] & Hd)]; [left|right].
    + assert (it ∈ queue (shown w)) as Hin.
      { simpl. apply elem_of_app. by left. }
      split_and!; [done| |by apply (inv_live _ HI')].
      simpl. apply elem_of_app. by left.
    + split_and!; simpl; try done.
      * rewrite fmap_app, elem_of_app. simpl. rewrite list_elem_of_singleton.
        intros [?|?]; [done|lia].
      * rewrite fmap_app, elem_of_app. simpl. rewrite list_elem_of_singleton.
        intros [?|?]; [done|lia].
      * split; simpl.
        -- rewrite (filter_fresh _ _ (inv_body w HI)).
           rewrite elem_of_app, list_elem_of_singleton.
           intros [?|?]; [done|lia].
        -- by rewrite lookup_insert_ne by lia.
  - injection Hstep as <-.
    split_and!; try done.
    destruct Hst as [?|(Hq & Hq' & Hrel & Hd)]; [by left|right].
    split_and!; try done. simpl. lia.
  - destruct (fire_record w k w' HI Hstep)
      as (t & a & l1 & l2 & Hk & Hdue & Hqw & Hlen & Hca & -> & Hne).
    split_and!; try done.
    destruct Hst as [(Hq & Ht & Hl)|(Hq & Hq' & [Hb Hrt] & Hd)].
    + destruct (decide (it = a)) as [->|Hia].
      * right. assert (t = tm) as ->.
        { apply (own_timer a tm w k t); [done|done|done|done|by symmetry]. }
        destruct Hl as (_ & _ & Hroot).
        split_and!; simpl; try done.
        -- intros (b & Heq & Hb)%list_elem_of_fmap. by destruct (Hne b Hb).
        -- intros (b & Heq & Hb)%list_elem_of_fmap. by destruct (Hne b Hb).
        -- split; simpl.
           ++ intros [? _]%list_elem_of_filter. done.
           ++ by rewrite lookup_alter_eq, Hroot.
      * left.
        assert (it ∈ l1 ++ l2) as Hin.
        { rewrite Hqw in Hq.
          apply elem_of_app in Hq as [?|[?|?]%elem_of_cons];
            [apply elem_of_app; by left|done|apply elem_of_app; by right]. }
        split_and!; [done| |by apply (inv_live _ HI')].
        simpl. apply (elem_of_delete_ne _ _ _ t); [done..|].
        intros ->. destruct (Hne it Hin) as [Hn _]. congruence.
    + right.
      assert (a ∈ queue w) as Ha.
      { rewrite Hqw. apply elem_of_app. right. by left. }
      assert (∀ b, b ∈ l1 ++ l2 → b ∈ queue w) as Hsub.
      { intros b. rewrite Hqw, !elem_of_app, elem_of_cons. tauto. }
      split_and!; simpl; try done.
      * intros (b & Heq & Hin%Hsub)%list_elem_of_fmap.
        apply Hq. rewrite Heq. by apply list_elem_of_fmap_2.
      * intros (b & Heq & Hin%Hsub)%list_elem_of_fmap.
        apply Hq'. rewrite Heq. by apply list_elem_of_fmap_2.
      * split; simpl.
        -- intros [_ ?]%list_elem_of_filter. done.
        -- rewrite lookup_alter_ne; [done|]. intros Heq.
           apply Hq'. rewrite <- Heq. by apply list_elem_of_fmap_2.
Qed.
Lemma tracked_run it tm evs : ∀ w w',
  tracked it tm w → run evs w = Some w' → tracked it tm w'.
Proof.
  induction evs as [|e evs IH]; simpl; intros w w' Ht.
  - by intros [= <-].
  - destruct (step e w) as [w1|] eqn:Hs; simpl; [|done].
    apply IH. by eapply tracked_step.
Qed.

(** The two phases exclude each other. *)
Lemma tracked_cases it tm w :
  tracked it tm w →
  (it ∈ queue w ↔ tm ∈ timers w)
  ∧ (it ∈ queue w → live w it)
  ∧ (it ∉ queue w → released w it ∧ due tm ≤ now w).
Proof.
  intros (HI & Hcap & Hc & Hr & [(Hq & Ht & Hl)|(Hq & Hq' & Hrel & Hd)]).
  - split_and!; [done|done|]. intros Hn. done.
  - assert (it ∉ queue w) as Hnq.
    { intros Hin. apply Hq. by apply list_elem_of_fmap_2. }
    assert (tm ∉ timers w) as Hnt.
    { intros Hin. apply Hq. rewrite <- (inv_timers w HI), <- Hcap.
      by apply list_elem_of_fmap_2. }
    split_and!; [tauto|done|done].
Qed.

Lemma absent_step it tm e w w' :
  tracked it tm w → it ∉ queue w → step e w = Some w' → it ∉ queue w'.
Proof.
  intros (HI & Hcap & Hc & Hr & _) Hn Hstep.
  destruct e as [| |k]; simpl in Hstep.
  - injection Hstep as <-. rewrite onShow_shown. simpl.
    intros [?| ->%list_elem_of_singleton]%elem_of_app; [done|simpl in Hc; lia].
  - by injection Hstep as <-.
  - apply fire_frame in Hstep as (_ & _ & _ & _ & _ & Hsub).
    intros Hin. by apply Hn, Hsub.
Qed.

Lemma absent_run it tm evs : ∀ w w',
  tracked it tm w → it ∉ queue w → run evs w = Some w' → it ∉ queue w'.
Proof.
  induction evs as [|e evs IH]; simpl; intros w w' Ht Hn.
  - by intros [= <-].
  - destruct (step e w) as [w1|] eqn:Hs; simpl; [|done].
    apply IH; [by eapply tracked_step|by eapply absent_step].
Qed.

(** A pending toast leaves the queue only when its own timer fires. *)
Lemma leave_by_own_timer it tm e w w' :
  tracked it tm w → step e w = Some w' → it ∈ queue w → it ∉ queue w' →
  ∃ k, e = EvFire k ∧ timers w !! k = Some tm ∧ due tm ≤ now w.
Proof.
  intros Ht Hstep Hin Hout.
  pose proof Ht as (HI & Hcap & Hc & Hr & _).
  destruct e as [| |k]; simpl in Hstep.
  - injection Hstep as <-. rewrite onShow_shown in Hout. simpl in Hout.
    exfalso. apply Hout, elem_of_app. by left.
  - injection Hstep as <-. done.
  - destruct (fire_record w k w' HI Hstep)
      as (t & a & l1 & l2 & Hk & Hdue & Hqw & Hlen & Hca & -> & Hne).
    simpl in Hout. exists k.
    destruct (decide (it = a)) as [->|Hia].
    + assert (t = tm) as ->; [|done].
      eapply own_timer; try done. by apply (tracked_cases _ _ _ Ht).
    + exfalso. apply Hout. rewrite Hqw in Hin.
      apply elem_of_app in Hin as [?|[?|?]%elem_of_cons];
        [apply elem_of_app; by left|done|apply elem_of_app; by right].
Qed.

(** Once the deadline is reached the toast's timer can fire, and
    firing it removes the toast. *)
Lemma own_timer_fires it tm w :
  tracked it tm w → it ∈ queue w → due tm ≤ now w →
  ∃ k w', timers w !! k = Some tm ∧ fire k w = Some w'
          ∧ (it ∉ queue w') ∧ released w' it.
Proof.
  intros Ht Hin Hdue.
  pose proof Ht as (HI & Hcap & Hc & Hr & _).
  destruct (tracked_cases _ _ _ Ht) as (Hiff & _ & _).
  apply Hiff in Hin as Htm. apply list_elem_of_lookup in Htm as [k Hk].
  destruct (fire_enabled w k tm Hk Hdue) as [w' Hf].
  exists k, w'. split_and!; [done..| |].
  - destruct (fire_record w k w' HI Hf)
      as (t & a & l1 & l2 & Hk' & _ & Hqw & Hlen & Hca & -> & Hne).
    simpl. intros Hin'. destruct (Hne it Hin') as [Hn _].
    apply Hn. rewrite Hca. congruence.
  - assert (tracked it tm w') as Ht' by by eapply (tracked_step _ _ (EvFire k)).
    destruct (tracked_cases _ _ _ Ht') as (Hiff' & _ & Hrel).
    apply Hrel. rewrite Hiff'.
    apply fire_frame in Hf as (_ & -> & _).
    intros Hin'. assert (NoDup (timers w)) as Hnd.
    { apply (NoDup_fmap_1 captured). rewrite (inv_timers w HI). apply HI. }
    apply list_elem_of_lookup in Hin' as [j Hj].
    destruct (decide (j < k)).
    + rewrite list_lookup_delete_lt in Hj by done.
      pose proof (NoDup_lookup _ _ _ _ Hnd Hj Hk). lia.
    + rewrite list_lookup_delete_ge in Hj by lia.
      pose proof (NoDup_lookup _ _ _ _ Hnd Hj Hk). lia.
Qed.

(** ** Lifetime of a toast *)

(** C2.  A toast created by a call at clock reading T is in the queue,
    attached and mounted, at every later moment before T + 2000; it is
    in the queue exactly as long as its timer is pending; the only step
    that takes it out of the queue is the firing of its own timer,
    which cannot happen before T + 2000 and can happen from then on,
    and which unmounts its root and detaches its container; once out it
    never comes back.  Under the punctual scheduler, which runs every
    timer at the millisecond of its deadline, the toast is in the queue
    exactly while the clock is below T + 2000. *)
Theorem toast_lifetime (w : World) :
  reachable w →
  ∃ w1 it tm,
    onShow w = Ok tt w1
    ∧ it = mkItem (next_node w) (next_root w)
    ∧ tm = mkTimer (now w + 2000) (next_node w)
    ∧ it ∈ queue w1 ∧ tm ∈ timers w1 ∧ now w1 = now w
    ∧ (∀ evs w2, run evs w1 = Some w2 →
         (it ∈ queue w2 ↔ tm ∈ timers w2)
         ∧ (now w2 < now w + 2000 → it ∈ queue w2)
         ∧ (it ∈ queue w2 → live w2 it)
         ∧ (it ∉ queue w2 → released w2 it ∧ now w + 2000 ≤ now w2)
         ∧ (∀ e w3, step e w2 = Some w3 → it ∈ queue w2 → it ∉ queue w3 →
              ∃ k, e = EvFire k ∧ timers w2 !! k = Some tm
                   ∧ now w + 2000 ≤ now w2)
         ∧ (it ∈ queue w2 → now w + 2000 ≤ now w2 →
              ∃ k w3, timers w2 !! k = Some tm ∧ fire k w2 = Some w3
                      ∧ (it ∉ queue w3) ∧ released w3 it)
         ∧ (it ∉ queue w2 →
              ∀ evs' w3, run evs' w2 = Some w3 → it ∉ queue w3))
    ∧ (∀ acts, it ∈ queue (play acts w1) ↔ now (play acts w1) < now w + 2000).
Proof.
  intros HI%reachable_Inv.
  pose proof (tracked_shown w HI) as Ht1.
  set (it := mkItem (next_node w) (next_root w)) in *.
  set (tm := mkTimer (now w + 2000) (next_node w)) in *.
  assert (∀ evs w2, run evs (shown w) = Some w2 →
            now w2 < now w + 2000 → it ∈ queue w2) as Hearly.
  { intros evs w2 Hrun Hnow.
    pose proof (tracked_run it tm evs _ _ Ht1 Hrun) as Ht2.
    destruct (tracked_cases _ _ _ Ht2) as (_ & _ & Hrel).
    destruct (decide (it ∈ queue w2)) as [|Hn]; [done|].
    apply Hrel in Hn as [_ Hd]. simpl in Hd. lia. }
  exists (shown w), it, tm. split_and!; try done.
  - apply onShow_shown.
  - simpl. apply elem_of_app. right. by apply list_elem_of_singleton.
  - simpl. apply elem_of_app. right. by apply list_elem_of_singleton.
  - intros evs w2 Hrun.
    pose proof (tracked_run it tm evs _ _ Ht1 Hrun) as Ht2.
    destruct (tracked_cases _ _ _ Ht2) as (Hiff & Hlive & Hrel).
    split_and!; try done.
    + by apply (Hearly evs).
    + intros e w3 Hstep Hin Hout.
      by apply (leave_by_own_timer it tm e w2 w3).
    + intros Hin Hd. by apply own_timer_fires.
    + intros Hn evs' w3. by apply absent_run with tm.
  - intros acts. split.
    + intros Hin. destruct (play_run acts (shown w)) as [evs Hrun].
      pose proof (tracked_run it tm evs _ _ Ht1 Hrun) as Ht2.
      destruct (tracked_cases _ _ _ Ht2) as (Hiff & _ & _).
      apply Hiff in Hin.
      apply (play_punctual tm acts (shown w)); [simpl; lia|done].
    + destruct (play_run acts (shown w)) as [evs Hrun]. by apply (Hearly evs).
Qed.

Lemma toast_lifetime_witness :
  reachable (boot 0 [])
  ∧ ∃ w1 it tm,
      onShow (boot 0 []) = Ok tt w1
      ∧ it = mkItem 0 0 ∧ tm = mkTimer 2000 0
      ∧ (∀ acts, it ∈ queue (play acts w1) ↔ now (play acts w1) < 2000).
Proof.
  assert (reachable (boot 0 [])) as Hr by (exists 0, [], []; reflexivity).
  split; [exact Hr|].
  destruct (toast_lifetime (boot 0 []) Hr)
    as (w1 & it & tm & H1 & H2 & H3 & _ & _ & _ & _ & H4).
  exists w1, it, tm. split_and!; [exact H1|exact H2|exact H3|exact H4].
Defined.

(** ** Offsets can collide *)

(** C10.  The offset is the queue length at creation, not a counter.
    Calls at 0 ms and 1900 ms followed, after the first toast has
    expired at 2000 ms, by a call at 2100 ms leave two records in the
    queue whose containers are different elements with the same
    [top], "50px".  Distinct offsets are guaranteed for calls made into
    an empty queue with no expiry in between; from a non-empty queue a
    single call can already collide. *)
Theorem offset_collision :
  (∃ w a b,
     play [Call; Sleep 1900; Call; Sleep 200; Call] (boot 0 []) = w
     ∧ reachable w ∧ now w = 2100
     ∧ queue w = [a; b] ∧ msgContainer a ≠ msgContainer b
     ∧ top_of w a = Some "50px" ∧ top_of w b = Some "50px"
     ∧ ¬ NoDup (offsets w))
  ∧ (∀ w evs w',
       reachable w → queue w = [] → quiet evs → run evs w = Some w' →
       NoDup (offsets w'))
  ∧ (∃ w w', reachable w ∧ length (queue w) = 1 ∧ NoDup (offsets w)
             ∧ run [EvShow] w = Some w' ∧ ¬ NoDup (offsets w')).
Proof.
  split_and!.
  - eexists _, _, _. split; [vm_compute; reflexivity|].
    split_and!; try (vm_compute; reflexivity).
    + exists 0, [],
        ([EvShow] ++ repeat EvTick 1900 ++ [EvShow] ++ repeat EvTick 100
         ++ [EvFire 0] ++ repeat EvTick 100 ++ [EvShow]).
      vm_compute. reflexivity.
    + vm_compute. intros [=].
    + vm_compute. intros [Hin _]%NoDup_cons. apply Hin. by left.
  - intros w evs w' HI%reachable_Inv Hempty Hq Hrun.
    destruct (quiet_run evs w HI Hq)
      as (w'' & new & tnew & Hrun' & _ & _ & _ & _ & _ & _ & _ & Hoff).
    rewrite Hrun in Hrun'. injection Hrun' as <-.
    rewrite Hoff. unfold offsets at 1. rewrite Hempty. simpl.
    apply (NoDup_fmap_2 _), NoDup_seq.
  - eexists _, _. split_and!.
    + exists 0, [],
        ([EvShow] ++ repeat EvTick 1900 ++ [EvShow] ++ repeat EvTick 100
         ++ [EvFire 0]).
      vm_compute. reflexivity.
    + vm_compute. reflexivity.
    + vm_compute. apply NoDup_singleton.
    + vm_compute. reflexivity.
    + vm_compute. intros [Hin _]%NoDup_cons. apply Hin. by left.
Qed.

Lemma offset_collision_witness :
  reachable (boot 0 []) ∧ queue (boot 0 []) = []
  ∧ quiet [EvShow; EvTick; EvShow]
  ∧ run [EvShow; EvTick; EvShow] (boot 0 []) = Some (play [Call; Sleep 1; Call] (boot 0 []))
  ∧ NoDup (offsets (play [Call; Sleep 1; Call] (boot 0 []))).
Proof.
  assert (reachable (boot 0 [])) as Hr by (exists 0, [], []; reflexivity).
  assert (quiet [EvShow; EvTick; EvShow]) as Hq by (repeat constructor).
  assert (run [EvShow; EvTick; EvShow] (boot 0 [])
          = Some (play [Call; Sleep 1; Call] (boot 0 []))) as Hrun
    by (vm_compute; reflexivity).
  split_and!; [exact Hr|reflexivity|exact Hq|exact Hrun|].
  exact (proj1 (proj2 offset_collision) _ _ _ Hr eq_refl Hq Hrun).
Defined.

(** ** The theorems at work on the scenario *)

(** One call at 0 ms: one record at offset 0 at once, an empty queue
    and an empty body from 2000 ms on. *)
Example scenario_single :
  let w0 := play [Call] (boot 0 []) in
  let w1 := play [Call; Sleep 1999] (boot 0 []) in
  let w2 := play [Call; Sleep 2000] (boot 0 []) in
  offsets w0 = [Some "0px"] ∧ body w0 = [0]
  ∧ length (queue w1) = 1
  ∧ queue w2 = [] ∧ body w2 = [] ∧ timers w2 = [] ∧ uncaught w2 = [].
Proof. vm_compute. by repeat split. Qed.

(** Three calls at 0, 10 and 20 ms: offsets 0, 50 and 100; the toasts
    go at 2000, 2010 and 2020 ms, in that order. *)
Example scenario_three :
  let acts := [Call; Sleep 10; Call; Sleep 10; Call] in
  offsets (play acts (boot 0 [])) = [Some "0px"; Some "50px"; Some "100px"]
  ∧ (msgContainer <$> queue (play (acts ++ [Sleep 1979]) (boot 0 []))) = [0; 1; 2]
  ∧ (msgContainer <$> queue (play (acts ++ [Sleep 1980]) (boot 0 []))) = [1; 2]
  ∧ (msgContainer <$> queue (play (acts ++ [Sleep 1990]) (boot 0 []))) = [2]
  ∧ (msgContainer <$> queue (play (acts ++ [Sleep 2000]) (boot 0 []))) = [].
Proof. vm_compute. by repeat split. Qed.

Lemma expiry_isolated_witness :
  reachable three_toasts ∧ fire 1 three_toasts = Some middle_expired
  ∧ ∃ t a,
      timers three_toasts !! 1 = Some t ∧ a ∈ queue three_toasts
      ∧ msgContainer a = captured t
      ∧ queue middle_expired
        = filter (fun it => msgContainer it ≠ captured t) (queue three_toasts)
      ∧ ∀ b, b ∈ queue three_toasts → b ≠ a →
             b ∈ queue middle_expired
             ∧ roots middle_expired !! root b = roots three_toasts !! root b
             ∧ nodes middle_expired !! msgContainer b
               = nodes three_toasts !! msgContainer b
             ∧ live middle_expired b.
Proof.
  assert (reachable three_toasts) as Hr
    by (exists 0, [], spec_scenario; vm_compute; reflexivity).
  assert (fire 1 three_toasts = Some middle_expired) as Hf
    by (vm_compute; reflexivity).
  split; [exact Hr|]. split; [exact Hf|].
  exact (expiry_isolated three_toasts 1 middle_expired Hr Hf).
Defined.

Lemma queue_invariant_witness :
  reachable three_toasts
  ∧ (∀ it, it ∈ queue three_toasts → live three_toasts it)
  ∧ (∀ it, released three_toasts it → it ∉ queue three_toasts)
  ∧ (∀ k w', fire k three_toasts = Some w' →
       ∃ t a, timers three_toasts !! k = Some t ∧ a ∈ queue three_toasts
              ∧ msgContainer a = captured t
              ∧ (a ∉ queue w') ∧ released w' a
              ∧ (∀ it, it ∈ queue w' → live w' it)).
Proof.
  assert (reachable three_toasts) as Hr
    by (exists 0, [], spec_scenario; vm_compute; reflexivity).
  split; [exact Hr|].
  exact (queue_invariant three_toasts Hr).
Defined.

Lemma offsets_stable_witness :
  reachable three_toasts ∧ mkItem 2 2 ∈ queue three_toasts
  ∧ top_of middle_expired (mkItem 2 2) = top_of three_toasts (mkItem 2 2)
  ∧ top_of three_toasts (mkItem 2 2) = Some "100px".
Proof.
  assert (reachable three_toasts) as Hr
    by (exists 0, [], spec_scenario; vm_compute; reflexivity).
  assert (fire 1 three_toasts = Some middle_expired) as Hf
    by (vm_compute; reflexivity).
  assert (mkItem 2 2 ∈ queue three_toasts) as Hin.
  { vm_compute. apply list_elem_of_In. simpl. tauto. }
  split_and!; [exact Hr|exact Hin| |vm_compute; reflexivity].
  exact (proj1 (proj1 (offsets_stable three_toasts (mkItem 2 2) Hr Hin)
                  1 middle_expired Hf)).
Defined.

Lemma expiry_lookup_succeeds_witness :
  reachable three_toasts ∧ timers three_toasts !! 1 = Some (mkTimer 2010 1)
  ∧ ∃ it w',
      find (fun item => bool_decide (msgContainer item = 1)) (queue three_toasts)
        = Some it
      ∧ msgContainer it = 1
      ∧ expire 1 (set_timers (delete 1) three_toasts) = Ok tt w'
      ∧ S (length (queue w')) = length (queue three_toasts)
      ∧ uncaught w' = []
      ∧ (2010 ≤ now three_toasts → fire 1 three_toasts = Some w').
Proof.
  assert (timers three_toasts !! 1 = Some (mkTimer 2010 1)) as Hk
    by (vm_compute; reflexivity).
  assert (reachable three_toasts) as Hr
    by (exists 0, [], spec_scenario; vm_compute; reflexivity).
  split; [exact Hr|]. split; [exact Hk|].
  exact (expiry_lookup_succeeds three_toasts 1 (mkTimer 2010 1) Hr Hk).
Defined.

(** * Further properties of the toast queue *)

(** ** The page is left alone *)

Lemma middle_elem {A} (l1 l2 : list A) (a b : A) :
  b ∈ l1 ++ l2 → b ∈ l1 ++ a :: l2.
Proof. rewrite !elem_of_app, elem_of_cons. tauto. Qed.

Lemma page_kept_boot t0 page : page_kept page (boot t0 page).
Proof.
  split_and!; simpl.
  - by rewrite app_nil_r.
  - intros i el Hi. by rewrite lookup_map_seq_0.
  - done.
  - intros it Hit. by apply elem_of_nil in Hit.
Qed.

Lemma page_kept_step page e w w' :
  Inv w → page_kept page w → step e w = Some w' → page_kept page w'.
Proof.
  intros HI (Hb & Hn & Hlen & Hq) Hstep.
  destruct e as [| |k]; simpl in Hstep.
  - injection Hstep as <-. rewrite onShow_shown. cbn [settle].
    unfold page_kept. rewrite (shown_body w HI), Hb.
    split_and!.
    + simpl. by rewrite fmap_app, app_assoc.
    + intros i el Hi. simpl. rewrite lookup_insert_ne; [by apply Hn|].
      apply lookup_lt_Some in Hi. lia.
    + simpl. lia.
    + simpl. intros it [Hit|Hit]%elem_of_app; [by apply Hq|].
      apply list_elem_of_singleton in Hit as ->. done.
  - injection Hstep as <-. by split_and!.
  - destruct (fire_record w k w' HI Hstep)
      as (t & a & l1 & l2 & Hk & Hdue & Hqw & Hl1 & Hca & -> & Hne).
    assert (a ∈ queue w) as Ha.
    { rewrite Hqw. apply elem_of_app. right. by left. }
    split_and!; simpl; try done.
    + rewrite Hb, Hqw, !fmap_app, fmap_cons, !filter_app, filter_cons.
      rewrite decide_False by (intros ?; done).
      rewrite !filter_all; [done| | |].
      * intros c (b & -> & Hb')%list_elem_of_fmap.
        apply Hne, elem_of_app. by right.
      * intros c (b & -> & Hb')%list_elem_of_fmap.
        apply Hne, elem_of_app. by left.
      * intros c [_ Hc]%elem_of_seq. specialize (Hq a Ha). lia.
    + intros it Hit. apply Hq. rewrite Hqw. by apply middle_elem.
Qed.

Lemma page_kept_run page evs : ∀ w w',
  Inv w → page_kept page w → run evs w = Some w' → page_kept page w'.
Proof.
  induction evs as [|e evs IH]; simpl; intros w w' HI Hp.
  - by intros [= <-].
  - destruct (step e w) as [w1|] eqn:Hs; simpl; [|done].
    apply IH; [by eapply Inv_step|by eapply page_kept_step].
Qed.

(** X1.  Whatever calls, ticks and expiries happen after the module is
    loaded, the children the body had at load time are still its first
    children, in their order, followed by exactly the containers of the
    queue in queue order; and the attributes of the page's own elements
    are the ones they had. *)
Theorem page_untouched (t0 : nat) (page : list Element) (evs : list event)
    (w : World) :
  run evs (boot t0 page) = Some w →
  body w = seq 0 (length page) ++ (msgContainer <$> queue w)
  ∧ (∀ i el, page !! i = Some el → nodes w !! i = Some el).
Proof.
  intros Hrun.
  destruct (page_kept_run page evs _ _ (Inv_boot t0 page)
              (page_kept_boot t0 page) Hrun) as (Hb & Hn & _).
  by split.
Qed.

Lemma page_untouched_witness :
  run [EvShow; EvTick; EvShow] (boot 0 [mkElement "div" "app" ""])
    = Some (play [Call; Sleep 1; Call] (boot 0 [mkElement "div" "app" ""]))
  ∧ body (play [Call; Sleep 1; Call] (boot 0 [mkElement "div" "app" ""]))
    = seq 0 1 ++ (msgContainer <$>
        queue (play [Call; Sleep 1; Call] (boot 0 [mkElement "div" "app" ""])))
  ∧ (∀ i el, [mkElement "div" "app" ""] !! i = Some el →
       nodes (play [Call; Sleep 1; Call] (boot 0 [mkElement "div" "app" ""])) !! i
       = Some el).
Proof.
  assert (run [EvShow; EvTick; EvShow] (boot 0 [mkElement "div" "app" ""])
    = Some (play [Call; Sleep 1; Call] (boot 0 [mkElement "div" "app" ""])))
    as Hrun by (vm_compute; reflexivity).
  split; [exact Hrun|].
  exact (page_untouched 0 [mkElement "div" "app" ""] [EvShow; EvTick; EvShow]
           _ Hrun).
Defined.

(** ** What a toast's container looks like *)

Lemma styled_step e w w' :
  Inv w → styled w → step e w = Some w' → styled w'.
Proof.
  intros HI Hs Hstep.
  destruct e as [| |k]; simpl in Hstep.
  - injection Hstep as <-. rewrite onShow_shown. cbn [settle].
    intros i it Hi. simpl in Hi.
    apply lookup_app_Some in Hi as [Hi|[Hlen Hi]].
    + destruct (Hs i it Hi) as (k & Hk & Hn). exists k. split; [done|].
      simpl. rewrite lookup_insert_ne; [done|].
      apply list_elem_of_lookup_2, (inv_fresh w HI) in Hi. lia.
    + apply list_lookup_singleton_Some in Hi as [Hi <-].
      exists (length (queue w)). split; [lia|].
      simpl. by rewrite lookup_insert_eq.
  - injection Hstep as <-. done.
  - destruct (fire_record w k w' HI Hstep)
      as (t & a & l1 & l2 & Hk & Hdue & Hqw & Hl1 & Hca & -> & Hne).
    intros i it Hi. simpl in Hi |- *.
    apply lookup_app_Some in Hi as [Hi|[Hlen Hi]].
    + apply (Hs i). rewrite Hqw. by apply lookup_app_l_Some.
    + destruct (Hs (S i) it) as (j & Hj & Hn).
      { rewrite Hqw. apply lookup_app_Some. right. split; [lia|].
        replace (S i - length l1) with (S (i - length l1)) by lia. done. }
      exists j. split; [lia|done].
Qed.

Lemma styled_run evs : ∀ w w',
  Inv w → styled w → run evs w = Some w' → styled w'.
Proof.
  induction evs as [|e evs IH]; simpl; intros w w' HI Hp.
  - by intros [= <-].
  - destruct (step e w) as [w1|] eqn:Hs; simpl; [|done].
    apply IH; [by eapply Inv_step|by eapply styled_step].
Qed.

(** X2.  In every reachable world the container of the i-th record of
    the queue is a [div] with [className] "message" whose [top] is
    "{k * 50}px" for some k not smaller than i: a toast is never drawn
    above the slot of its current position. *)
Theorem toast_elements (w : World) (i : nat) (it : Item) :
  reachable w → queue w !! i = Some it →
  ∃ k, i ≤ k
       ∧ nodes w !! msgContainer it
         = Some (mkElement "div" "message" (px (k * 50))).
Proof.
  intros (t0 & page & evs & Hrun) Hi.
  apply (styled_run evs _ w (Inv_boot t0 page)); [|done..].
  intros j b Hj. simpl in Hj. by rewrite lookup_nil in Hj.
Qed.

Lemma toast_elements_witness :
  reachable middle_expired
  ∧ queue middle_expired !! 1 = Some (mkItem 2 2)
  ∧ ∃ k, 1 ≤ k
         ∧ nodes middle_expired !! msgContainer (mkItem 2 2)
           = Some (mkElement "div" "message" (px (k * 50))).
Proof.
  assert (reachable middle_expired) as Hr
    by (exists 0, [], (spec_scenario ++ [EvFire 1]); vm_compute; reflexivity).
  assert (queue middle_expired !! 1 = Some (mkItem 2 2)) as Hi
    by (vm_compute; reflexivity).
  split; [exact Hr|]. split; [exact Hi|].
  exact (toast_elements middle_expired 1 (mkItem 2 2) Hr Hi).
Defined.

(** ** When the callback fails *)

Lemma find_container_None (c : node_id) (q : list Item) :
  c ∉ (msgContainer <$> q) →
  find (fun item => bool_decide (msgContainer item = c)) q = None.
Proof.
  intros Hc. apply find_None, Forall_forall. intros it Hit.
  apply bool_decide_eq_false. intros <-. apply Hc.
  by apply list_elem_of_fmap_2.
Qed.

(** X3.  If no record of the queue holds the captured container, the
    callback throws a [TypeError] on reading [item.root] and has
    changed nothing. *)
Theorem callback_without_record (c : node_id) (w : World) :
  c ∉ (msgContainer <$> queue w) →
  ∃ msg, expire c w = Throw (TypeError msg) w.
Proof.
  intros Hc%find_container_None.
  destruct w as [t nn ns b nr rs q ts u]. simpl in Hc.
  unfold expire. run_world. rewrite Hc. by eexists.
Qed.

Lemma callback_without_record_witness :
  (7 ∉ (msgContainer <$> queue three_toasts))
  ∧ ∃ msg, expire 7 three_toasts = Throw (TypeError msg) three_toasts.
Proof.
  assert (7 ∉ (msgContainer <$> queue three_toasts)) as Hc.
  { apply (bool_decide_unpack _). vm_compute. exact I. }
  split; [exact Hc|].
  exact (callback_without_record 7 three_toasts Hc).
Defined.

(** X4.  If the record is found but its container is no longer a child
    of the body, the callback has already unmounted the root when
    [removeChild] throws [NotFoundError]; nothing is rolled back and the
    record stays in the queue. *)
Theorem callback_detached (c : node_id) (w : World) (it : Item) :
  find (fun item => bool_decide (msgContainer item = c)) (queue w) = Some it →
  msgContainer it ∉ body w →
  ∃ msg w',
    expire c w = Throw (NotFoundError msg) w'
    ∧ queue w' = queue w ∧ it ∈ queue w'
    ∧ body w' = body w ∧ timers w' = timers w ∧ nodes w' = nodes w
    ∧ roots w' = alter (fun rt => mkRoot (container rt) Unmounted) (root it) (roots w).
Proof.
  intros Hf Hb.
  assert (it ∈ queue w) as Hin.
  { apply find_split in Hf as (l1 & l2 & -> & _). apply elem_of_app. right. by left. }
  destruct w as [t nn ns b nr rs q ts u]. simpl in *.
  unfold expire, unmount, removeChild. run_world. rewrite Hf.
  run_world. rewrite decide_False by done.
  eexists _, _. by split_and!.
Qed.

Lemma callback_detached_witness :
  find (fun item => bool_decide (msgContainer item = 1))
       (queue (set_body (fun _ => []) three_toasts)) = Some (mkItem 1 1)
  ∧ (msgContainer (mkItem 1 1) ∉ body (set_body (fun _ => []) three_toasts))
  ∧ ∃ msg w',
      expire 1 (set_body (fun _ => []) three_toasts) = Throw (NotFoundError msg) w'
      ∧ mkItem 1 1 ∈ queue w'.
Proof.
  assert (find (fun item => bool_decide (msgContainer item = 1))
            (queue (set_body (fun _ => []) three_toasts)) = Some (mkItem 1 1)) as Hf
    by (vm_compute; reflexivity).
  assert (msgContainer (mkItem 1 1) ∉ body (set_body (fun _ => []) three_toasts)) as Hb.
  { apply (bool_decide_unpack _). vm_compute. exact I. }
  split; [exact Hf|]. split; [exact Hb|].
  destruct (callback_detached 1 _ _ Hf Hb) as (msg & w' & He & _ & Hin & _).
  exists msg, w'. split; [exact He|exact Hin].
Defined.

(** ** A toast that comes and goes *)

Lemma later_tick n w : later n (set_now S w) = later (S n) w.
Proof.
  destruct w as [t nn ns b nr rs q ts u].
  unfold later, set_now. cbn [now next_node nodes body next_root roots queue timers uncaught].
  f_equal. lia.
Qed.

Lemma run_ticks n : ∀ w, run (repeat EvTick n) w = Some (later n w).
Proof.
  induction n as [|n IH]; intros w.
  - destruct w as [t nn ns b nr rs q ts u]. unfold later, set_now.
    cbn [repeat run now next_node nodes body next_root roots queue timers uncaught].
    do 2 f_equal. lia.
  - cbn [repeat run step mbind option_bind]. by rewrite IH, later_tick.
Qed.

Lemma Inv_later n w : Inv w → Inv (later n w).
Proof. intros [? ? ? ? ? ? ?]. by split. Qed.

Lemma queue_timers_length w : Inv w → length (timers w) = length (queue w).
Proof.
  intros HI. rewrite <- (length_fmap captured), <- (length_fmap msgContainer).
  by rewrite (inv_timers w HI).
Qed.

(** X5.  A call followed by the passing of at least 2000 ms and the
    firing of the timer it armed restores the queue, the children of
    the body and the pending timers exactly as they were before the
    call; no exception escapes. *)
Theorem show_then_expire (w : World) (d : nat) :
  reachable w → 2000 ≤ d →
  ∃ w', run ([EvShow] ++ repeat EvTick d ++ [EvFire (length (timers w))]) w
          = Some w'
        ∧ queue w' = queue w ∧ body w' = body w ∧ timers w' = timers w
        ∧ now w' = now w + d ∧ uncaught w' = [].
Proof.
  intros HI%reachable_Inv Hd.
  pose proof (Inv_later d _ (Inv_shown w HI)) as HI2.
  set (w2 := later d (shown w)) in *.
  set (tm := mkTimer (now w + 2000) (next_node w)).
  assert (timers w2 !! length (timers w) = Some tm) as Hk.
  { subst w2. simpl. by rewrite list_lookup_middle. }
  assert (due tm ≤ now w2) as Hdue by (subst w2; simpl; lia).
  destruct (fire_expired w2 _ tm HI2 Hk Hdue)
    as (it & l1 & l2 & Hq & Hlen & Hc & Hfire).
  assert (l1 = queue w ∧ it :: l2 = [mkItem (next_node w) (next_root w)])
    as [-> Htl].
  { apply app_inj_1; [by rewrite Hlen, (queue_timers_length w HI)|].
    rewrite <- Hq. by subst w2. }
  injection Htl as -> ->.
  eexists. split_and!.
  - rewrite run_app. cbn [run step mbind option_bind app].
    rewrite onShow_shown. cbn [settle].
    rewrite run_app, run_ticks. cbn [mbind option_bind run].
    fold w2. change (step (EvFire (length (timers w))) w2)
      with (fire (length (timers w)) w2).
    rewrite Hfire. reflexivity.
  - simpl. by rewrite app_nil_r.
  - simpl. rewrite filter_app, (filter_fresh _ _ (inv_body w HI)).
    rewrite (filter_all _ (body w)).
    + rewrite filter_cons, decide_False by (intros ?; done). simpl.
      by rewrite app_nil_r.
    + intros m Hm%(inv_body w HI). lia.
  - simpl. by rewrite delete_middle, app_nil_r.
  - simpl. done.
  - simpl. apply HI.
Qed.

Lemma show_then_expire_witness :
  reachable three_toasts ∧ 2000 ≤ 2500
  ∧ ∃ w', run ([EvShow] ++ repeat EvTick 2500
               ++ [EvFire (length (timers three_toasts))]) three_toasts
            = Some w'
          ∧ queue w' = queue three_toasts ∧ body w' = body three_toasts
          ∧ timers w' = timers three_toasts
          ∧ now w' = now three_toasts + 2500 ∧ uncaught w' = [].
Proof.
  assert (reachable three_toasts) as Hr
    by (exists 0, [], spec_scenario; vm_compute; reflexivity).
  assert (2000 ≤ 2500) as Hd by lia.
  split; [exact Hr|]. split; [exact Hd|].
  exact (show_then_expire three_toasts 2500 Hr Hd).
Defined.

(** ** Expiries do not depend on their order *)

Lemma same_container w a b :
  Inv w → a ∈ queue w → b ∈ queue w → msgContainer a = msgContainer b → a = b.
Proof.
  intros HI [i Hi]%list_elem_of_lookup [j Hj]%list_elem_of_lookup Heq.
  assert (i = j) as ->; [|congruence].
  apply (NoDup_lookup (msgContainer <$> queue w) _ _ (msgContainer a));
    [apply HI| |].
  - by rewrite list_lookup_fmap, Hi.
  - by rewrite list_lookup_fmap, Hj, Heq.
Qed.

(** Under the invariant, firing a timer is taking down the toast of
    the captured container. *)
Lemma fire_without w k w' :
  Inv w → fire k w = Some w' →
  ∃ t a, timers w !! k = Some t ∧ due t ≤ now w
         ∧ a ∈ queue w ∧ msgContainer a = captured t
         ∧ w' = without (captured t) (root a) w.
Proof.
  intros HI Hfire.
  destruct (fire_record w k w' HI Hfire)
    as (t & a & l1 & l2 & Hk & Hdue & Hqw & Hl1 & Hca & -> & Hne).
  exists t, a. split_and!; try done.
  { rewrite Hqw. apply elem_of_app. right. by left. }
  unfold without, expired. simpl. f_equal.
  - by rewrite Hca.
  - rewrite Hqw, filter_app, filter_cons, decide_False by (intros ?; done).
    rewrite <- Hca. rewrite !filter_all; [done| |].
    + intros b Hb. apply Hne, elem_of_app. by right.
    + intros b Hb. apply Hne, elem_of_app. by left.
  - assert (NoDup (captured <$> timers w)) as Hnd.
    { rewrite (inv_timers w HI). apply HI. }
    rewrite <- (take_drop_middle (timers w) k t Hk) in Hnd |- *.
    apply NoDup_fmap_middle in Hnd as [_ Hnt].
    assert (length (take k (timers w)) = k) as Hlen.
    { apply length_take_le. apply lookup_lt_Some in Hk. lia. }
    rewrite <- Hlen at 1. rewrite delete_middle.
    rewrite filter_app, filter_cons, decide_False by (intros ?; done).
    rewrite !filter_all; [done| |].
    + intros b Hb. apply Hnt, elem_of_app. by right.
    + intros b Hb. apply Hnt, elem_of_app. by left.
Qed.

Lemma without_comm c1 r1 c2 r2 w :
  r1 ≠ r2 → without c1 r1 (without c2 r2 w) = without c2 r2 (without c1 r1 w).
Proof.
  intros Hr. unfold without. simpl. f_equal.
  - rewrite !list_filter_filter. apply list_filter_iff. tauto.
  - by apply alter_alter_ne.
  - rewrite !list_filter_filter. apply list_filter_iff. tauto.
  - rewrite !list_filter_filter. apply list_filter_iff. tauto.
Qed.

(** X6.  Two due timers can be fired in either order: both orders are
    possible and end in the same world. *)
Theorem expiries_commute (w : World) (k j : nat) (w1 w2 : World) :
  reachable w → k < j → fire k w = Some w1 → fire j w = Some w2 →
  ∃ w', fire (j - 1) w1 = Some w' ∧ fire k w2 = Some w'.
Proof.
  intros HI%reachable_Inv Hkj Hf1 Hf2.
  pose proof (Inv_fire _ _ _ HI Hf1) as HI1.
  pose proof (Inv_fire _ _ _ HI Hf2) as HI2.
  destruct (fire_without w k w1 HI Hf1) as (tk & a & Hk & Hdk & Ha & Hca & ->).
  destruct (fire_without w j w2 HI Hf2) as (tj & b & Hj & Hdj & Hb & Hcb & ->).
  assert (captured tk ≠ captured tj) as Hne.
  { intros Heq.
    assert (NoDup (captured <$> timers w)) as Hnd.
    { rewrite (inv_timers w HI). apply HI. }
    assert (k = j); [|lia].
    apply (NoDup_lookup _ _ _ (captured tk) Hnd).
    - by rewrite list_lookup_fmap, Hk.
    - by rewrite list_lookup_fmap, Hj, Heq. }
  assert (root a ≠ root b) as Hr.
  { intros Heq. apply Hne. rewrite <- Hca, <- Hcb. f_equal.
    destruct (list_elem_of_lookup_1 _ _ Ha) as [i Hi].
    destruct (list_elem_of_lookup_1 _ _ Hb) as [i' Hi'].
    assert (i = i') as ->; [|congruence].
    apply (NoDup_lookup (root <$> queue w) _ _ (root a)); [apply HI| |].
    - by rewrite list_lookup_fmap, Hi.
    - by rewrite list_lookup_fmap, Hi', Heq. }
  set (w1 := without (captured tk) (root a) w) in *.
  set (w2 := without (captured tj) (root b) w) in *.
  assert (timers w1 !! (j - 1) = Some tj) as Hj1.
  { destruct (fire_frame _ _ _ Hf1) as (_ & -> & _).
    rewrite list_lookup_delete_ge by lia.
    by replace (S (j - 1)) with j by lia. }
  assert (timers w2 !! k = Some tk) as Hk2.
  { destruct (fire_frame _ _ _ Hf2) as (_ & -> & _).
    by rewrite list_lookup_delete_lt by lia. }
  destruct (fire_enabled w1 (j - 1) tj Hj1 Hdj) as [w12 Hf12].
  destruct (fire_enabled w2 k tk Hk2 Hdk) as [w21 Hf21].
  exists w12. split; [done|]. rewrite Hf21. f_equal.
  destruct (fire_without w1 _ w12 HI1 Hf12) as (t' & b' & Hj' & _ & Hb' & Hcb' & ->).
  destruct (fire_without w2 _ w21 HI2 Hf21) as (t'' & a' & Hk' & _ & Ha' & Hca' & ->).
  assert (t' = tj) as -> by congruence.
  assert (t'' = tk) as -> by congruence.
  assert (b' = b) as ->.
  { apply (same_container w); [done| |done|congruence].
    subst w1. simpl in Hb'. by apply list_elem_of_filter in Hb' as [_ ?]. }
  assert (a' = a) as ->.
  { apply (same_container w); [done| |done|congruence].
    subst w2. simpl in Ha'. by apply list_elem_of_filter in Ha' as [_ ?]. }
  subst w1 w2. by apply without_comm.
Qed.

Lemma expiries_commute_witness :
  reachable three_toasts ∧ 0 < 1
  ∧ fire 0 three_toasts = Some (default three_toasts (fire 0 three_toasts))
  ∧ fire 1 three_toasts = Some middle_expired
  ∧ ∃ w', fire (1 - 1) (default three_toasts (fire 0 three_toasts)) = Some w'
          ∧ fire 0 middle_expired = Some w'.
Proof.
  assert (reachable three_toasts) as Hr
    by (exists 0, [], spec_scenario; vm_compute; reflexivity).
  assert (0 < 1) as Hlt by lia.
  assert (fire 0 three_toasts = Some (default three_toasts (fire 0 three_toasts)))
    as Hf0 by (vm_compute; reflexivity).
  assert (fire 1 three_toasts = Some middle_expired) as Hf1
    by (vm_compute; reflexivity).
  split_and!; [exact Hr|exact Hlt|exact Hf0|exact Hf1|].
  exact (expiries_commute three_toasts 0 1 _ _ Hr Hlt Hf0 Hf1).
Defined.

(** ** Deadlines and the order of the queue *)

Lemma in_deadline_order_boot t0 page : in_deadline_order (boot t0 page).
Proof.
  split; simpl.
  - intros i j ti tj _ Hi. by rewrite lookup_nil in Hi.
  - intros t Ht. by apply elem_of_nil in Ht.
Qed.

Lemma in_deadline_order_step e w w' :
  in_deadline_order w → step e w = Some w' → in_deadline_order w'.
Proof.
  intros [Hord Hmax] Hstep. destruct e as [| |k]; simpl in Hstep.
  - injection Hstep as <-. rewrite onShow_shown. cbn [settle].
    split; simpl.
    + intros i j ti tj Hij Hi Hj.
      apply lookup_app_Some in Hj as [Hj|[Hlen Hj]].
      * apply (Hord i j); [done| |done].
        apply lookup_app_Some in Hi as [Hi|[Hlen' _]]; [done|].
        apply lookup_lt_Some in Hj. lia.
      * apply list_lookup_singleton_Some in Hj as [_ <-]. simpl.
        apply lookup_app_Some in Hi as [Hi|[_ Hi]].
        -- apply Hmax. by eapply list_elem_of_lookup_2.
        -- by apply list_lookup_singleton_Some in Hi as [_ <-].
    + intros t [Ht|Ht]%elem_of_app; [by apply Hmax|].
      by apply list_elem_of_singleton in Ht as ->.
  - injection Hstep as <-. split; simpl; [done|].
    intros t Ht%Hmax. lia.
  - destruct (fire_frame _ _ _ Hstep) as (_ & Ht & Hnow & _).
    split; rewrite Ht, ?Hnow.
    + intros i j ti tj Hij Hi Hj.
      rewrite list_lookup_delete in Hi, Hj.
      repeat case_decide; (eapply (Hord _ _ ti tj); [|exact Hi|exact Hj]; lia).
    + intros t Hin%list_elem_of_delete_inv. by apply Hmax.
Qed.

Lemma in_deadline_order_run evs : ∀ w w',
  in_deadline_order w → run evs w = Some w' → in_deadline_order w'.
Proof.
  induction evs as [|e evs IH]; simpl; intros w w' Ho.
  - by intros [= <-].
  - destruct (step e w) as [w1|] eqn:Hs; simpl; [|done].
    apply IH. by eapply in_deadline_order_step.
Qed.

(** X7.  In every reachable world the pending timers are listed by
    non-decreasing deadline, in the order they were armed, and no
    deadline lies more than 2000 ms ahead of the clock. *)
Theorem timers_in_deadline_order (w : World) :
  reachable w →
  (∀ i j ti tj, i ≤ j → timers w !! i = Some ti → timers w !! j = Some tj →
                due ti ≤ due tj)
  ∧ (∀ t, t ∈ timers w → due t ≤ now w + 2000).
Proof.
  intros (t0 & page & evs & Hrun).
  by apply (in_deadline_order_run evs _ w (in_deadline_order_boot t0 page)).
Qed.

Lemma timers_in_deadline_order_witness :
  reachable three_toasts
  ∧ (∀ i j ti tj, i ≤ j → timers three_toasts !! i = Some ti →
       timers three_toasts !! j = Some tj → due ti ≤ due tj)
  ∧ (∀ t, t ∈ timers three_toasts → due t ≤ now three_toasts + 2000).
Proof.
  assert (reachable three_toasts) as Hr
    by (exists 0, [], spec_scenario; vm_compute; reflexivity).
  split; [exact Hr|].
  exact (timers_in_deadline_order three_toasts Hr).
Defined.

(** The first due timer of an ordered list is its head. *)
Lemma first_due_head w k :
  in_deadline_order w → first_due w = Some k → k = 0.
Proof.
  intros [Hord _]. unfold first_due.
  destruct (list_find _ _) as [[i t]|] eqn:Hf; simpl; [|done].
  intros [= <-]. apply list_find_Some in Hf as (Hi & Hd & Hmin).
  destruct i as [|i]; [done|]. exfalso.
  destruct (lookup_lt_is_Some_2 (timers w) 0) as [t0 H0].
  { apply lookup_lt_Some in Hi. lia. }
  apply (Hmin 0 t0 H0); [lia|].
  specialize (Hord 0 (S i) t0 t). simpl. etrans; [apply Hord|]; [lia|done..].
Qed.

Lemma newest_shown w : Inv w → newest_first_out w → newest_first_out (shown w).
Proof.
  intros HI [Hle Hs]. unfold newest_first_out. simpl.
  rewrite length_app, fmap_app, Hs. simpl. split; [lia|].
  replace (length (queue w) + 1) with (S (length (queue w))) by lia.
  rewrite seq_S. simpl. repeat f_equal; lia.
Qed.

Lemma newest_fire_head w w' :
  Inv w → newest_first_out w → fire 0 w = Some w' → newest_first_out w'.
Proof.
  intros HI [Hle Hs] Hfire.
  destruct (fire_record w 0 w' HI Hfire)
    as (t & a & l1 & l2 & Hk & Hdue & Hqw & Hl1 & Hca & -> & Hne).
  destruct l1; [|done]. simpl in Hqw.
  unfold newest_first_out. cbn [expired queue next_node app set_timers].
  rewrite Hqw in Hle, Hs. rewrite fmap_cons in Hs. cbn [length] in Hle, Hs.
  split; [lia|].
  replace (next_node w - S (length l2)) with (next_node w - length l2 - 1) in Hs by lia.
  destruct (next_node w - length l2) as [|m] eqn:Hm; [lia|].
  replace (S m - 1) with m in Hs by lia.
  rewrite <- cons_seq in Hs. by injection Hs as _ Hs.
Qed.

Lemma flush_n_newest n : ∀ w,
  Inv w → in_deadline_order w → newest_first_out w →
  Inv (flush_n n w) ∧ in_deadline_order (flush_n n w)
  ∧ newest_first_out (flush_n n w).
Proof.
  induction n as [|n IH]; intros w HI Ho Hn; simpl; [done|].
  destruct (first_due w) as [k|] eqn:Hfd; [|done].
  apply (first_due_head w k Ho) in Hfd as ->.
  destruct (fire 0 w) as [w1|] eqn:Hf; [|done].
  apply IH.
  - by eapply Inv_fire.
  - by apply (in_deadline_order_step (EvFire 0) w).
  - by eapply newest_fire_head.
Qed.

Lemma elapse_newest d : ∀ w,
  Inv w → in_deadline_order w → newest_first_out w →
  Inv (elapse d w) ∧ in_deadline_order (elapse d w)
  ∧ newest_first_out (elapse d w).
Proof.
  induction d as [|d IH]; intros w HI Ho Hn; simpl; [done|].
  destruct (flush_n_newest (length (timers (set_now S w))) (set_now S w))
    as (HI' & Ho' & Hn').
  - by apply Inv_tick.
  - by apply (in_deadline_order_step EvTick w).
  - done.
  - by apply IH.
Qed.

Lemma play_newest acts : ∀ w,
  Inv w → in_deadline_order w → newest_first_out w →
  (∀ t, t ∈ timers w → now w < due t) →
  Inv (play acts w) ∧ in_deadline_order (play acts w)
  ∧ newest_first_out (play acts w)
  ∧ (∀ t, t ∈ timers (play acts w) → now (play acts w) < due t).
Proof.
  induction acts as [|a acts IH]; intros w HI Ho Hn Hp; simpl; [done|].
  destruct a as [|d]; simpl.
  - rewrite onShow_shown. cbn [settle]. apply IH.
    + by apply Inv_shown.
    + pose proof (in_deadline_order_step EvShow w (shown w) Ho) as H.
      apply H. simpl. by rewrite onShow_shown.
    + by apply newest_shown.
    + simpl. intros t [Ht|Ht]%elem_of_app; [by apply Hp|].
      apply list_elem_of_singleton in Ht as ->. simpl. lia.
  - destruct (elapse_newest d w HI Ho Hn) as (HI' & Ho' & Hn').
    apply IH; try done.
    intros t Ht. by apply (elapse_punctual t d w); [intros ?; apply Hp|].
Qed.

(** X8.  On the punctual schedule toasts leave in the order they came:
    at every moment the queue holds exactly the most recently created
    containers, oldest first with no gap, and every pending deadline
    lies in the future, at most 2000 ms ahead. *)
Theorem punctual_first_in_first_out (t0 : nat) (page : list Element)
    (acts : list action) :
  let w := play acts (boot t0 page) in
  msgContainer <$> queue w
    = seq (next_node w - length (queue w)) (length (queue w))
  ∧ (∀ t, t ∈ timers w → now w < due t ∧ due t ≤ now w + 2000).
Proof.
  destruct (play_newest acts (boot t0 page)) as (HI & [_ Hmax] & [_ Hs] & Hp).
  - apply Inv_boot.
  - apply in_deadline_order_boot.
  - split; simpl; [lia|done].
  - simpl. intros t Ht. by apply elem_of_nil in Ht.
  - simpl. split; [done|]. intros t Ht. split; [by apply Hp|by apply Hmax].
Qed.

Lemma punctual_first_in_first_out_witness :
  let w := play [Call; Sleep 1995; Call; Sleep 10; Call] (boot 0 []) in
  mkTimer 3995 1 ∈ timers w
  ∧ msgContainer <$> queue w
    = seq (next_node w - length (queue w)) (length (queue w))
  ∧ now w < due (mkTimer 3995 1) ∧ due (mkTimer 3995 1) ≤ now w + 2000.
Proof.
  cbv zeta.
  assert (mkTimer 3995 1
          ∈ timers (play [Call; Sleep 1995; Call; Sleep 10; Call] (boot 0 [])))
    as Hin by (apply (bool_decide_unpack _); vm_compute; exact I).
  split; [exact Hin|].
  destruct (punctual_first_in_first_out 0 []
              [Call; Sleep 1995; Call; Sleep 10; Call]) as [Hq Ht].
  split; [exact Hq|]. exact (Ht _ Hin).
Defined.

(** ** Two seconds of silence *)

Lemma flush_n_timers_subset n : ∀ w t,
  t ∈ timers (flush_n n w) → t ∈ timers w.
Proof.
  induction n as [|n IH]; intros w t; simpl; [done|].
  destruct (first_due w) as [k|]; [|done].
  destruct (fire k w) as [w1|] eqn:Hf; [|done].
  intros Ht%IH. apply fire_frame in Hf as (_ & Hts & _).
  rewrite Hts in Ht. by eapply list_elem_of_delete_inv.
Qed.

Lemma elapse_timers_subset d : ∀ w t,
  t ∈ timers (elapse d w) → t ∈ timers w.
Proof.
  induction d as [|d IH]; intros w t; simpl; [done|].
  intros Ht%IH. by apply flush_n_timers_subset in Ht.
Qed.

Lemma play_app acts1 acts2 w :
  play (acts1 ++ acts2) w = play acts2 (play acts1 w).
Proof. revert w. induction acts1 as [|a acts1 IH]; intros w; simpl; [done|apply IH]. Qed.

(** X9.  On the punctual schedule, once 2000 ms or more have passed
    since the last call every toast is gone: the queue and the timer
    list are empty, the body has exactly the children the page had, and
    no exception has escaped.  The next call therefore starts again at
    offset 0. *)
Theorem all_gone_after_silence (t0 : nat) (page : list Element)
    (acts : list action) (d : nat) :
  2000 ≤ d →
  let w := play (acts ++ [Sleep d]) (boot t0 page) in
  queue w = [] ∧ timers w = [] ∧ body w = seq 0 (length page)
  ∧ uncaught w = []
  ∧ top_of (play [Call] w) (mkItem (next_node w) (next_root w)) = Some "0px".
Proof.
  intros Hd. cbv zeta. rewrite play_app. simpl play.
  set (w1 := play acts (boot t0 page)).
  destruct (play_newest acts (boot t0 page)) as (HI1 & [_ Hmax] & _ & _).
  { apply Inv_boot. }
  { apply in_deadline_order_boot. }
  { split; simpl; [lia|done]. }
  { simpl. intros t Ht. by apply elem_of_nil in Ht. }
  fold w1 in HI1, Hmax.
  destruct (elapse_run d w1) as [evs2 Hrun2].
  destruct (play_run acts (boot t0 page)) as [evs1 Hrun1]. fold w1 in Hrun1.
  assert (Inv (elapse d w1)) as HI2 by by eapply Inv_run.
  assert (timers (elapse d w1) = []) as Hts.
  { destruct (timers (elapse d w1)) as [|t ts] eqn:Ht; [done|]. exfalso.
    assert (t ∈ timers (elapse d w1)) as Hin by (rewrite Ht; by left).
    pose proof (elapse_timers_subset d w1 t Hin) as Hin1.
    apply Hmax in Hin1.
    destruct d as [|d']; [lia|].
    assert (now (elapse (S d') w1) < due t) as Hlt.
    { simpl. apply (elapse_punctual t d' (flush (set_now S w1)));
        [apply flush_settled|done]. }
    rewrite elapse_now in Hlt. lia. }
  assert (queue (elapse d w1) = []) as Hq.
  { apply length_zero_iff_nil. rewrite <- (queue_timers_length _ HI2), Hts. done. }
  assert (run (evs1 ++ evs2) (boot t0 page) = Some (elapse d w1)) as Hrun.
  { by rewrite run_app, Hrun1. }
  destruct (page_kept_run page _ _ _ (Inv_boot t0 page)
              (page_kept_boot t0 page) Hrun) as (Hb & _).
  split_and!; [done|done| |apply HI2|].
  - by rewrite Hb, Hq, app_nil_r.
  - simpl. rewrite onShow_shown. unfold top_of. simpl.
    rewrite lookup_insert_eq, Hq. reflexivity.
Qed.

Lemma all_gone_after_silence_witness :
  2000 ≤ 2000
  ∧ queue (play ([Call; Sleep 10; Call] ++ [Sleep 2000]) (boot 0 [])) = []
  ∧ timers (play ([Call; Sleep 10; Call] ++ [Sleep 2000]) (boot 0 [])) = [].
Proof.
  assert (2000 ≤ 2000) as Hd by lia.
  split; [exact Hd|].
  destruct (all_gone_after_silence 0 [] [Call; Sleep 10; Call] 2000 Hd)
    as (Hq & Ht & _).
  split; [exact Hq|exact Ht].
Defined.

(** * The goods table *)



Lemma cart_add_absent (i : Z) (goods : list Cart.Good) :
  i ∉ (Cart.id <$> goods) →
  Cart.handleAdd i goods = goods ∧ Cart.handleSub i goods = goods.
Proof.
  induction goods as [|g goods IH]; [done|].
  rewrite fmap_cons, not_elem_of_cons. intros [Hne Hn].
  destruct (IH Hn) as [Ha Hs].
  unfold Cart.handleAdd, Cart.handleSub in *. rewrite !fmap_cons, Ha, Hs.
  by rewrite !decide_False by done.
Qed.







(** X12.  The buttons change counts only: after a click the list has
    the same goods in the same order with the same ids, names and
    prices, and a click for an id that is not listed changes nothing. *)
Theorem cart_keeps_goods (i : Z) (goods : list Cart.Good) :
  (let key g := (Cart.id g, Cart.name g, Cart.price g) in
   key <$> Cart.handleAdd i goods = key <$> goods
   ∧ key <$> Cart.handleSub i goods = key <$> goods)
  ∧ (i ∉ (Cart.id <$> goods) →
     Cart.handleAdd i goods = goods ∧ Cart.handleSub i goods = goods).
Proof.
  split; [|apply cart_add_absent].
  unfold Cart.handleAdd, Cart.handleSub. simpl.
  rewrite <- !list_fmap_compose.
  split; apply list_fmap_ext; intros _ g _; simpl; by case_decide.
Qed.

Lemma cart_keeps_goods_witness :
  (7 ∉ (Cart.id <$> Cart.initial))%Z
  ∧ Cart.handleAdd 7 Cart.initial = Cart.initial
  ∧ Cart.handleSub 7 Cart.initial = Cart.initial.
Proof.
  assert (7 ∉ (Cart.id <$> Cart.initial))%Z as Hn.
  { apply (bool_decide_unpack _). vm_compute. exact I. }
  split; [exact Hn|].
  exact (proj2 (cart_keeps_goods 7 Cart.initial) Hn).
Defined.

(** * The todo cache *)

(** X13.  A failed optimistic update puts back exactly the list that
    was cached when it started, also when a todo was added to the cache
    in between, which is thereby dropped.  When nothing was cached, the
    snapshot is empty-handed and nothing is rolled back: the cache
    keeps the one optimistic todo. *)
Theorem optimistic_rollback (newTodo added : Todos.Todo) (old : list Todos.Todo) :
  (let '(context, cache1) := Todos.onMutate newTodo (Some old) in
   Todos.onError (Some context) cache1 = Some old
   ∧ Todos.onError (Some context) (Todos.addTodo_onSuccess added cache1)
     = Some old)
  ∧ (let '(context, cache1) := Todos.onMutate newTodo None in
     Todos.onError (Some context) cache1 = Some [newTodo]).
Proof. by simpl. Qed.

Lemma optimistically_lookup (newTodo : Todos.Todo) (old : list Todos.Todo)
    (i : nat) (todo : Todos.Todo) :
  old !! i = Some todo →
  Todos.optimistically newTodo (Some old) !! i
  = Some (if decide (Todos.id todo = Todos.id newTodo)
          then Todos.merged todo newTodo else todo).
Proof. intros Hi. simpl. by rewrite list_lookup_fmap, Hi. Qed.

Lemma optimistically_unique (newTodo : Todos.Todo) (old : list Todos.Todo)
    (i : nat) (todo : Todos.Todo) :
  NoDup (Todos.id <$> old) → old !! i = Some todo →
  Todos.id todo = Todos.id newTodo →
  Todos.optimistically newTodo (Some old)
  = <[i := Todos.merged todo newTodo]> old.
Proof.
  intros Hnd Hi Hid. apply list_eq. intros j.
  destruct (old !! j) as [tj|] eqn:Hj.
  - rewrite (optimistically_lookup _ _ _ _ Hj).
    destruct (decide (j = i)) as [->|Hne].
    + rewrite list_lookup_insert_eq by (by eapply lookup_lt_Some).
      assert (tj = todo) as -> by congruence. by rewrite decide_True.
    + rewrite list_lookup_insert_ne by done. rewrite Hj.
      rewrite decide_False; [done|]. intros Heq. apply Hne.
      apply (NoDup_lookup (Todos.id <$> old) _ _ (Todos.id newTodo) Hnd).
      * rewrite list_lookup_fmap, Hj. simpl. by rewrite Heq.
      * rewrite list_lookup_fmap, Hi. simpl. by rewrite Hid.
  - simpl. rewrite list_lookup_fmap, Hj. simpl. symmetry.
    apply lookup_ge_None. rewrite length_insert. by apply lookup_ge_None.
Qed.

(** X14.  With pairwise distinct ids in the cache, the optimistic
    update started by the toggle button of a cached todo rewrites
    exactly that entry: its [completed] is flipped and it is marked
    optimistic, every other entry and the order stay.  A second toggle
    of the same todo brings [completed] back; the mark stays. *)
Theorem optimistic_toggle (old : list Todos.Todo) (i : nat) (todo : Todos.Todo) :
  NoDup (Todos.id <$> old) → old !! i = Some todo →
  let once := Todos.optimistically (Todos.toggled todo) (Some old) in
  let flipped := Todos.mkTodo (Todos.id todo) (Todos.title todo)
                 (negb (Todos.completed todo)) true in
  once = <[i := flipped]> old
  ∧ Todos.optimistically (Todos.toggled flipped) (Some once)
    = <[i := Todos.mkTodo (Todos.id todo) (Todos.title todo)
               (Todos.completed todo) true]> old.
Proof.
  intros Hnd Hi. cbv zeta.
  assert ((Todos.optimistically (Todos.toggled todo) (Some old))
          = <[i := Todos.mkTodo (Todos.id todo) (Todos.title todo)
                     (negb (Todos.completed todo)) true]> old) as H1.
  { by rewrite (optimistically_unique _ old i todo). }
  split; [exact H1|]. rewrite H1.
  rewrite (optimistically_unique _ _ i
             (Todos.mkTodo (Todos.id todo) (Todos.title todo)
                (negb (Todos.completed todo)) true)).
  - rewrite list_insert_insert_eq. unfold Todos.merged. simpl.
    by rewrite negb_involutive.
  - rewrite list_fmap_insert. simpl.
    rewrite list_insert_id; [done|]. by rewrite list_lookup_fmap, Hi.
  - apply list_lookup_insert_eq. by eapply lookup_lt_Some.
  - done.
Qed.

Lemma optimistic_toggle_witness :
  let old := [Todos.mkTodo 1 "a" false false; Todos.mkTodo 2 "b" false false;
              Todos.mkTodo 3 "c" true false] in
  NoDup (Todos.id <$> old) ∧ old !! 1 = Some (Todos.mkTodo 2 "b" false false)
  ∧ Todos.optimistically (Todos.toggled (Todos.mkTodo 2 "b" false false)) (Some old)
    = [Todos.mkTodo 1 "a" false false; Todos.mkTodo 2 "b" true true;
       Todos.mkTodo 3 "c" true false].
Proof.
  cbv zeta.
  assert (NoDup (Todos.id <$> [Todos.mkTodo 1 "a" false false;
            Todos.mkTodo 2 "b" false false; Todos.mkTodo 3 "c" true false])) as Hnd.
  { apply (bool_decide_unpack _). vm_compute. exact I. }
  split; [exact Hnd|]. split; [reflexivity|].
  exact (proj1 (optimistic_toggle _ 1 (Todos.mkTodo 2 "b" false false) Hnd eq_refl)).
Defined.

(** X15.  An optimistic update never adds or removes an entry of a
    cached list: the ids are the same in the same order, and when no
    cached todo has the id of the updated one the list is unchanged.
    Only when nothing is cached does it create a list, holding that one
    todo without the mark. *)
Theorem optimistic_keeps_entries (newTodo : Todos.Todo) (old : list Todos.Todo) :
  Todos.id <$> Todos.optimistically newTodo (Some old) = Todos.id <$> old
  ∧ (Todos.id newTodo ∉ (Todos.id <$> old) →
     Todos.optimistically newTodo (Some old) = old)
  ∧ Todos.optimistically newTodo None = [newTodo].
Proof.
  split_and!; [| |done].
  - simpl. rewrite <- list_fmap_compose. apply list_fmap_ext.
    intros _ t _. simpl. by case_decide.
  - intros Hn. simpl. rewrite <- (list_fmap_id old) at 2.
    apply list_fmap_ext. intros j t Hj. simpl.
    rewrite decide_False; [done|]. intros Heq. apply Hn. rewrite <- Heq.
    apply list_elem_of_fmap_2. by eapply list_elem_of_lookup_2.
Qed.

Lemma optimistic_keeps_entries_witness :
  (5 ∉ (Todos.id <$> [Todos.mkTodo 1 "a" false false]))%Z
  ∧ Todos.optimistically (Todos.mkTodo 5 "e" true false)
      (Some [Todos.mkTodo 1 "a" false false])
    = [Todos.mkTodo 1 "a" false false].
Proof.
  assert (5 ∉ (Todos.id <$> [Todos.mkTodo 1 "a" false false]))%Z as Hn.
  { apply (bool_decide_unpack _). vm_compute. exact I. }
  split; [exact Hn|].
  exact (proj1 (proj2 (optimistic_keeps_entries (Todos.mkTodo 5 "e" true false)
                         [Todos.mkTodo 1 "a" false false])) Hn).
Defined.

(** * The stopwatch *)

Lemma stopwatch_wf_step (e : Stopwatch.event) (s : Stopwatch.State) :
  Stopwatch.wf s → Stopwatch.wf (Stopwatch.step e s).
Proof.
  intros Hwf. pose proof Hwf as (Hn & Hr & Hc). destruct e as [| |h]; simpl.
  - split_and!; simpl.
    + lia.
    + intros h [->%elem_of_singleton|Hh%Hr]%elem_of_union; lia.
    + intros h [= <-]. lia.
  - unfold Stopwatch.handleEnd.
    destruct (Stopwatch.current s) as [h|] eqn:Hcur; [|exact Hwf].
    case_decide; [exact Hwf|]. split_and!; simpl; [done| |done].
    intros h' [Hh' _]%elem_of_difference. by apply Hr.
  - unfold Stopwatch.fire. case_decide; [|exact Hwf]. by split_and!.
Qed.

Lemma stopwatch_wf_run (evs : list Stopwatch.event) : ∀ s,
  Stopwatch.wf s → Stopwatch.wf (Stopwatch.run evs s).
Proof.
  induction evs as [|e evs IH]; intros s Hwf; [done|].
  apply IH. by apply stopwatch_wf_step.
Qed.

Lemma stopwatch_wf_init n0 : Stopwatch.wf (Stopwatch.init n0).
Proof.
  split_and!; simpl; [lia| |done].
  intros h Hh. by apply not_elem_of_empty in Hh.
Qed.

Lemma stopwatch_leak_step (e : Stopwatch.event) (s : Stopwatch.State) (h : nat) :
  Stopwatch.wf s → h ∈ Stopwatch.running s → Stopwatch.current s ≠ Some h →
  h ∈ Stopwatch.running (Stopwatch.step e s)
  ∧ Stopwatch.current (Stopwatch.step e s) ≠ Some h.
Proof.
  intros (Hn & Hr & Hc) Hh Hcur. destruct e as [| |h']; simpl.
  - split.
    + apply elem_of_union. by right.
    + intros [= Heq]. apply Hr in Hh. lia.
  - unfold Stopwatch.handleEnd.
    destruct (Stopwatch.current s) as [c|] eqn:Hcs; [|by rewrite Hcs].
    case_decide; [by rewrite Hcs|]. simpl. split; [|done].
    apply elem_of_difference. split; [done|].
    intros ->%elem_of_singleton. done.
  - unfold Stopwatch.fire. by case_decide.
Qed.

(** X16.  [handleEnd] can only clear the interval started last.  An
    interval that is running while [timer.current] holds another handle
    or [null] keeps running whatever buttons are pressed afterwards,
    and each run of its callback still adds one to [t]. *)
Theorem interval_leak (n0 : nat) (evs evs' : list Stopwatch.event) (h : nat) :
  let s := Stopwatch.run evs (Stopwatch.init n0) in
  let s' := Stopwatch.run evs' s in
  h ∈ Stopwatch.running s → Stopwatch.current s ≠ Some h →
  h ∈ Stopwatch.running s'
  ∧ Stopwatch.t (Stopwatch.fire h s') = S (Stopwatch.t s').
Proof.
  intros s s' Hh Hcur.
  assert (Stopwatch.wf s) as Hwf
    by apply stopwatch_wf_run, stopwatch_wf_init.
  assert (h ∈ Stopwatch.running s' ∧ Stopwatch.current s' ≠ Some h) as [Hh' _].
  { subst s'. clearbody s. clear evs. revert s Hwf Hh Hcur.
    induction evs' as [|e evs' IH]; intros s Hwf Hh Hcur; [done|].
    simpl. destruct (stopwatch_leak_step e s h Hwf Hh Hcur).
    apply IH; [by apply stopwatch_wf_step|done..]. }
  split; [done|].
  unfold Stopwatch.fire. by rewrite decide_True.
Qed.

Lemma interval_leak_witness :
  let s := Stopwatch.run [Stopwatch.Start; Stopwatch.Start] (Stopwatch.init 0) in
  let s' := Stopwatch.run [Stopwatch.End; Stopwatch.End; Stopwatch.Fire 2] s in
  1 ∈ Stopwatch.running s ∧ Stopwatch.current s ≠ Some 1
  ∧ 1 ∈ Stopwatch.running s'
  ∧ Stopwatch.t (Stopwatch.fire 1 s') = S (Stopwatch.t s').
Proof.
  cbv zeta.
  assert (1 ∈ Stopwatch.running
            (Stopwatch.run [Stopwatch.Start; Stopwatch.Start] (Stopwatch.init 0)))
    as Hh by (apply (bool_decide_unpack _); vm_compute; exact I).
  assert (Stopwatch.current
            (Stopwatch.run [Stopwatch.Start; Stopwatch.Start] (Stopwatch.init 0))
          ≠ Some 1) as Hc by (simpl; intros [=]).
  split; [exact Hh|]. split; [exact Hc|].
  exact (interval_leak 0 [Stopwatch.Start; Stopwatch.Start]
           [Stopwatch.End; Stopwatch.End; Stopwatch.Fire 2] 1 Hh Hc).
Defined.

Lemma stopwatch_starts (n : nat) : ∀ s,
  Stopwatch.run (repeat Stopwatch.Start (S n)) s
  = Stopwatch.mkState (Some (Stopwatch.next_handle s + n))
      (list_to_set (seq (Stopwatch.next_handle s) (S n)) ∪ Stopwatch.running s)
      (Stopwatch.next_handle s + S n) (Stopwatch.t s).
Proof.
  induction n as [|n IH]; intros s.
  - simpl. unfold Stopwatch.handleStart. f_equal; [f_equal; lia| |lia].
    by rewrite (right_id_L ∅ (∪)).
  - change (repeat Stopwatch.Start (S (S n)))
      with (Stopwatch.Start :: repeat Stopwatch.Start (S n)).
    change (Stopwatch.run (Stopwatch.Start :: repeat Stopwatch.Start (S n)) s)
      with (Stopwatch.run (repeat Stopwatch.Start (S n)) (Stopwatch.handleStart s)).
    rewrite IH. unfold Stopwatch.handleStart.
    cbn [Stopwatch.next_handle Stopwatch.running Stopwatch.t].
    f_equal; [f_equal; lia| |lia].
    rewrite <- (cons_seq (S n) (Stopwatch.next_handle s)), list_to_set_cons.
    by rewrite (assoc_L (∪)), (comm_L (∪) {[Stopwatch.next_handle s]}),
      <- (assoc_L (∪)).
Qed.

(** X17.  Pressing start n+1 times in a row and then end once leaves n
    intervals running that no handle refers to any more: exactly the
    first n of the new handles stay in the running set, and
    [timer.current] is [null].  With a single start (n = 0) the running
    set is as before. *)
Theorem starts_then_end (n0 : nat) (evs : list Stopwatch.event) (n : nat) :
  let s := Stopwatch.run evs (Stopwatch.init n0) in
  let s' := Stopwatch.run (repeat Stopwatch.Start (S n) ++ [Stopwatch.End]) s in
  Stopwatch.running s'
    = list_to_set (seq (Stopwatch.next_handle s) n) ∪ Stopwatch.running s
  ∧ size (Stopwatch.running s') = size (Stopwatch.running s) + n
  ∧ Stopwatch.current s' = None
  ∧ Stopwatch.t s' = Stopwatch.t s.
Proof.
  intros s s'.
  assert (Stopwatch.wf s) as (Hn & Hr & Hc)
    by apply stopwatch_wf_run, stopwatch_wf_init.
  assert (s' = Stopwatch.mkState None
            (list_to_set (seq (Stopwatch.next_handle s) n) ∪ Stopwatch.running s)
            (Stopwatch.next_handle s + S n) (Stopwatch.t s)) as ->.
  { subst s'. unfold Stopwatch.run at 1. rewrite foldl_app.
    change (foldl _ s (repeat Stopwatch.Start (S n)))
      with (Stopwatch.run (repeat Stopwatch.Start (S n)) s).
    rewrite stopwatch_starts. cbn [foldl Stopwatch.step].
    unfold Stopwatch.handleEnd.
    cbn [Stopwatch.current Stopwatch.running Stopwatch.next_handle Stopwatch.t].
    rewrite decide_False by lia. f_equal.
    rewrite seq_S, list_to_set_app_L.
    apply set_eq. intros h.
    rewrite elem_of_difference, !elem_of_union, !elem_of_list_to_set,
      elem_of_seq, list_elem_of_singleton, elem_of_singleton.
    split.
    - intros [[[?|?]|?] ?]; [by left|done|by right].
    - intros [?|Hh]; (split; [|try (apply Hr in Hh); lia]);
        [left; by left|by right]. }
  simpl. split_and!; try done.
  rewrite size_union.
  - rewrite size_list_to_set by apply NoDup_seq. rewrite length_seq. lia.
  - intros h [? _]%elem_of_list_to_set%elem_of_seq Hh%Hr. lia.
Qed.

(** * The click counter *)

Lemma counter_after_click (evs : list Counter.event) : ∀ s,
  Counter.count s = (Counter.num_current s + 1)%Z →
  Counter.count (Counter.run evs s) = (Counter.num_current (Counter.run evs s) + 1)%Z.
Proof.
  induction evs as [|e evs IH]; intros s Hs; [done|].
  simpl. apply IH. destruct e; simpl; [lia|done].
Qed.

Lemma counter_bounded (evs : list Counter.event) : ∀ s,
  (Counter.seen s ≤ Counter.count s ≤ Counter.seen s + 1)%Z →
  (Counter.seen (Counter.run evs s) ≤ Counter.count (Counter.run evs s)
   ≤ Counter.seen (Counter.run evs s) + 1)%Z
  ∧ (Counter.count (Counter.run evs s)
     ≤ Counter.seen s + Z.of_nat (Counter.renders evs) + 1)%Z
  ∧ (Counter.seen (Counter.run evs s)
     ≤ Counter.seen s + Z.of_nat (Counter.renders evs))%Z.
Proof.
  induction evs as [|e evs IH]; intros s Hs.
  - simpl. lia.
  - destruct e.
    + destruct (IH (Counter.handleClick2 s)) as (H1 & H2 & H3); [simpl; lia|].
      change (Counter.run (Counter.Click :: evs) s)
        with (Counter.run evs (Counter.handleClick2 s)).
      simpl Counter.seen in H2, H3. simpl Counter.renders. lia.
    + destruct (IH (Counter.render s)) as (H1 & H2 & H3); [simpl; lia|].
      change (Counter.run (Counter.Render :: evs) s)
        with (Counter.run evs (Counter.render s)).
      simpl Counter.seen in H2, H3. simpl Counter.renders. lia.
Qed.

(** X18.  After the first click [num.current] is always exactly one
    behind [count], and [count] never exceeds the number of renders
    that have happened plus one: clicks that are not separated by a
    render all set the same value. *)
Theorem click_counter_lags (evs : list Counter.event) :
  let s := Counter.run evs Counter.init in
  (Counter.Click ∈ evs → Counter.count s = (Counter.num_current s + 1)%Z)
  ∧ (Counter.count s ≤ Z.of_nat (Counter.renders evs) + 1)%Z.
Proof.
  simpl. split.
  - intros Hin. apply list_elem_of_split in Hin as (l1 & l2 & ->).
    unfold Counter.run. rewrite foldl_app. simpl.
    by apply counter_after_click.
  - destruct (counter_bounded evs Counter.init) as (_ & H & _); simpl in *; lia.
Qed.

Lemma click_counter_lags_witness :
  let evs := [Counter.Click; Counter.Click; Counter.Render; Counter.Click] in
  Counter.Click ∈ evs
  ∧ Counter.count (Counter.run evs Counter.init)
    = (Counter.num_current (Counter.run evs Counter.init) + 1)%Z
  ∧ Counter.count (Counter.run evs Counter.init) = 2%Z.
Proof.
  cbv zeta.
  assert (Counter.Click ∈ [Counter.Click; Counter.Click; Counter.Render; Counter.Click])
    as Hin by (left).
  split; [exact Hin|]. split; [|reflexivity].
  exact (proj1 (click_counter_lags
                  [Counter.Click; Counter.Click; Counter.Render; Counter.Click]) Hin).
Defined.

(** * The click handler of the [useState] example *)


